(** * RC-S620S FeliCa reader driver (Rcs620s.js, felicaca_utils.js)

    A shallow embedding of the driver: the frame codec, the pending-read
    queue serviced by the 10 ms timer, the transaction engine
    [_rw_command], the card-command layer and the service/block reader.

    Conventions.
    - A [Buffer] is a list of integers, each a byte value.
    - A JavaScript string used as a binary string is the list of its
      character codes; [Buffer.from(s, 'ascii')] keeps the low 8 bits of
      each code.
    - JavaScript numbers are integers in [Z]; the 32-bit conversion done by
      [&], [>>] and [<<] is written out with [to_int32].
    - A promise-returning function is a function from the state of the
      driver and of its environment to an [outcome] and a new state. *)

From Stdlib Require Import ZArith List String Ascii Bool Lia.
Import ListNotations.
Open Scope Z_scope.

(** ** JavaScript numbers, strings and buffers *)

Module Js.

Definition bytes := list Z.
Definition jsstring := list Z.

(** ToInt32: wrap to the signed 32-bit range. *)
Definition to_int32 (x : Z) : Z := (x + 2 ^ 31) mod 2 ^ 32 - 2 ^ 31.

(** [a & b], [a >> n], [a << n] on numbers. *)
Definition band (a b : Z) : Z := Z.land (to_int32 a) (to_int32 b).
Definition sar (a n : Z) : Z := Z.shiftr (to_int32 a) n.
Definition shl (a n : Z) : Z := to_int32 (Z.shiftl (to_int32 a) n).

(** [String.fromCharCode(n)]: one UTF-16 code unit. *)
Definition fromCharCode (n : Z) : jsstring := [n mod 65536].

(** [Buffer.from(s, 'ascii')]: one byte per code unit, low 8 bits. *)
Definition buffer_from_ascii (s : jsstring) : bytes :=
  map (fun c => Z.land c 255) s.

(** [buf.slice(a)] and [buf.slice(a, b)] for in-range indices. *)
Definition slice_from (a : nat) (b : bytes) : bytes := skipn a b.
Definition slice (a e : nat) (b : bytes) : bytes := firstn (e - a) (skipn a b).

Definition hex_digit (n : Z) : ascii :=
  if n <? 10 then ascii_of_nat (Z.to_nat (48 + n))
  else ascii_of_nat (Z.to_nat (87 + n)).

(** [buf.toString('hex')] *)
Fixpoint to_hex (b : bytes) : string :=
  match b with
  | [] => EmptyString
  | x :: r => String (hex_digit (x / 16)) (String (hex_digit (x mod 16)) (to_hex r))
  end.

(** [s.indexOf(p) === 0] *)
Definition starts_with (p s : string) : bool := String.prefix p s.

(** [buf[i]], [undefined] out of range. *)
Definition at_ (b : bytes) (i : nat) : option Z := nth_error b i.

(** [x === k] for an element read from a buffer and a number [k]. *)
Definition is_ (x : option Z) (k : Z) : bool :=
  match x with Some v => v =? k | None => false end.

End Js.
Import Js.

(** ** felicaca_utils.js *)

(** [range(n)] *)
Definition range (n : Z) : list Z := map Z.of_nat (seq 0 (Z.to_nat n)).

(** [int2strbinLE(num, length)] *)
Fixpoint int2strbinLE (num : Z) (length : nat) : jsstring :=
  match length with
  | O => []
  | S l => fromCharCode (band num 255) ++ int2strbinLE (sar num 8) l
  end.

(** One round of the accumulation loop of [read_number]:
    [out <<= 8; out += extracted_data[j]].  [None] stands for [NaN], which
    [<<=] turns into 0 and which adding [undefined] produces. *)
Definition read_number_step (out : option Z) (x : option Z) : option Z :=
  let shifted := shl (match out with Some v => v | None => 0 end) 8 in
  match x with
  | Some b => Some (shifted + b)
  | None => None
  end.

Inductive byte_order := LE | BE.

(** [read_number(buffer, idx, len, byte_order)] *)
Definition read_number (buffer : bytes) (idx len : nat) (order : byte_order)
  : option Z :=
  let end_idx := if (len =? 0)%nat then List.length buffer else (idx + len)%nat in
  let extracted_data := map (fun i => at_ buffer i) (seq idx (end_idx - idx)) in
  let extracted_data :=
    match order with LE => rev extracted_data | BE => extracted_data end in
  fold_left
    (fun out j => read_number_step out (nth j extracted_data None))
    (seq 0 len) (Some 0).

(** ** Frame codec *)

Inductive arg :=
| ABuf (b : bytes)
| ANum (n : Z)
| AStr (s : jsstring).

Definition arg_bytes (a : arg) : bytes :=
  match a with
  | ABuf b => b
  | ANum n => buffer_from_ascii (fromCharCode n)
  | AStr s => buffer_from_ascii s
  end.

(** [concat_buffer(...)] (module function) *)
Definition concat_buffer (args : list arg) : bytes :=
  List.concat (map arg_bytes args).

(** [Rcs620s._calculate_checksum(buffer)] *)
Definition _calculate_checksum (buffer : bytes) : Z :=
  let check_sum := fold_left Z.add buffer 0 in
  band (- check_sum) 255.

Definition MAX_RW_RESPONSE_LEN : Z := 265.

(** ** State of a reader and of its environment *)

Inductive exn :=
| ThrownString (s : string)
| TypeError (s : string)
| ReferenceError (s : string).

(** Rejection reasons: a string, [{error, error2}] /
    [{error, error2, block_number}] wrapping a lower-level reason, or an
    error object that was thrown where a promise turns it into a
    rejection. *)
Inductive error :=
| EStr (s : string)
| EWrap (tag : string) (error2 : error)
| EBlock (tag : string) (error2 : error) (block_number : Z)
| EError (x : exn).

(** The rejection reason a thrown value becomes: a thrown string is the
    reason itself. *)
Definition reason_of (x : exn) : error :=
  match x with
  | ThrownString s => EStr s
  | other => EError other
  end.

(** The [check] of a read request or of a transaction: absent
    ([undefined] or the default ['']), a hex string, a function, or some
    other value. *)
Inductive checker :=
| CheckNone
| CheckHex (s : string)
| CheckFun (f : bytes -> bool)
| CheckOther.

(** [if (check)]: truthiness of the value. *)
Definition check_truthy (c : checker) : bool :=
  match c with
  | CheckNone => false
  | CheckHex s => negb (String.eqb s EmptyString)
  | CheckFun _ => true
  | CheckOther => true
  end.

(** An entry of [_read_queue].  [promise] identifies the promise whose
    [ok]/[ng] are stored as [ok_callback]/[ng_callback]. *)
Record read_req := {
  time_in : Z;
  time_expire : Z;
  bytes_needed : nat;
  buffers : list bytes;
  check : checker;
  promise : nat
}.

(** The fields of an [Rcs620s] instance the driver uses, the serial port
    as the driver sees it ([written], [flushed]) and the environment: the
    clock and the chunks the device will send, each with its arrival
    time. *)
Record world := {
  _timeout : Z;
  _busy : bool;
  _read_buffer : option bytes;      (* [None] is the initial [''] *)
  _read_queue : list read_req;
  next_promise : nat;
  written : list bytes;             (* [_ser.write] calls, oldest first *)
  flushed : nat;                    (* number of [_ser.flush] calls *)
  clock : Z;                        (* [(new Date).getTime()] *)
  inbound : list (Z * bytes)
}.

Definition set_busy (b : bool) (w : world) : world :=
  {| _timeout := _timeout w; _busy := b; _read_buffer := _read_buffer w;
     _read_queue := _read_queue w; next_promise := next_promise w;
     written := written w; flushed := flushed w; clock := clock w;
     inbound := inbound w |}.

Definition set_reads (rb : option bytes) (q : list read_req) (w : world) : world :=
  {| _timeout := _timeout w; _busy := _busy w; _read_buffer := rb;
     _read_queue := q; next_promise := next_promise w;
     written := written w; flushed := flushed w; clock := clock w;
     inbound := inbound w |}.

Definition set_serial (wr : list bytes) (fl : nat) (w : world) : world :=
  {| _timeout := _timeout w; _busy := _busy w; _read_buffer := _read_buffer w;
     _read_queue := _read_queue w; next_promise := next_promise w;
     written := wr; flushed := fl; clock := clock w;
     inbound := inbound w |}.

Definition set_env (c : Z) (i : list (Z * bytes)) (w : world) : world :=
  {| _timeout := _timeout w; _busy := _busy w; _read_buffer := _read_buffer w;
     _read_queue := _read_queue w; next_promise := next_promise w;
     written := written w; flushed := flushed w; clock := c;
     inbound := i |}.

(** [new Rcs620s(port, baudrate, on_ready, timeout)] talking to a device
    that will send [script]. *)
Definition constructor (timeout : Z) (script : list (Z * bytes)) : world :=
  {| _timeout := if timeout =? 0 then 1000 else timeout;
     _busy := false; _read_buffer := None; _read_queue := [];
     next_promise := 0; written := []; flushed := 0; clock := 0;
     inbound := script |}.

(** ** Pending-read queue *)

(** The ['data'] handler of the serial port. *)
Definition on_data (buffer : bytes) (w : world) : world :=
  match _read_buffer w with
  | None => set_reads (Some buffer) (_read_queue w) w
  | Some rb => set_reads (Some (rb ++ buffer)) (_read_queue w) w
  end.

(** A call of a stored callback. *)
Inductive callback :=
| ok_callback (p : nat) (b : bytes)
| ng_callback (p : nat) (reason : string).

Definition with_read (r : read_req) (n : nat) (bs : list bytes) : read_req :=
  {| time_in := time_in r; time_expire := time_expire r; bytes_needed := n;
     buffers := bs; check := check r; promise := promise r |}.

(** One run of the [setInterval] callback at time [now]: the new state, the
    callbacks it called, in order, and the exception that escaped it, if
    any. *)
Definition tick (now : Z) (w : world) : world * list callback * option exn :=
  match _read_queue w with
  | [] => (w, [], None)
  | read_req :: rest =>
      if now >=? time_expire read_req then
        (* ng_callback('timeout'); this._read_buffer.shift(): neither a
           Buffer nor a string has a [shift] method *)
        (w, [ng_callback (promise read_req) "timeout"],
         Some (TypeError "this._read_buffer.shift is not a function"))
      else
        match _read_buffer w with
        | None => (w, [], None)
        | Some rb =>
            let bytes_to_take :=
              if (bytes_needed read_req <=? List.length rb)%nat
              then bytes_needed read_req else List.length rb in
            let read_req' :=
              with_read read_req (bytes_needed read_req - bytes_to_take)
                        (buffers read_req ++ [firstn bytes_to_take rb]) in
            let rb' := skipn bytes_to_take rb in
            let out_buffer := List.concat (buffers read_req') in
            if (bytes_needed read_req' =? 0)%nat then
              let check_ok :=
                if check_truthy (check read_req') then
                  match check read_req' with
                  | CheckFun f => f out_buffer
                  | CheckHex s => String.eqb s (to_hex out_buffer)
                  | _ => false
                  end
                else true in
              (set_reads (Some rb') rest w,
               (if check_ok then []
                else [ng_callback (promise read_req') "check-failed"])
               ++ [ok_callback (promise read_req') out_buffer],
               None)
            else (set_reads (Some rb') (read_req' :: rest) w, [], None)
        end
  end.

(** ** Promises *)

(** What becomes of the promise a function returns.  [Pending]: it is never
    settled.  [Thrown]: the function threw before returning a promise.
    [Uncaught]: an exception escaped the timer callback while the promise
    was awaited; the model does not follow the program beyond it. *)
Inductive outcome (A : Type) : Type :=
| Resolved (a : A)
| Rejected (e : error)
| Pending
| Thrown (x : exn)
| Uncaught (x : exn).
Arguments Resolved {A} a.
Arguments Rejected {A} e.
Arguments Pending {A}.
Arguments Thrown {A} x.
Arguments Uncaught {A} x.

Definition M (A : Type) : Type := world -> outcome A * world.

Definition resolve {A} (a : A) : M A := fun w => (Resolved a, w).
Definition reject {A} (e : error) : M A := fun w => (Rejected e, w).

(** [p.then(on_ok, on_ng)] inside [new Promise(...)], the handlers settling
    the new promise. *)
Definition then_ {A B} (p : M A) (on_ok : A -> M B) (on_ng : error -> M B) : M B :=
  fun w =>
    match p w with
    | (Resolved a, w') => on_ok a w'
    | (Rejected e, w') => on_ng e w'
    | (Pending, w') => (Pending, w')
    | (Thrown x, w') => (Thrown x, w')
    | (Uncaught x, w') => (Uncaught x, w')
    end.

(** An exception raised inside a [.then] handler rejects only the promise
    that this [.then] returned, which the driver drops; the promise under
    construction is never settled. *)
Definition throw_in_handler {A} (x : exn) : M A := fun w => (Pending, w).

(** A handler whose statement [rest] comes after one that throws [x]:
    [rest] is not reached. *)
Definition throws_before {A} (x : exn) (rest : M A) : M A := throw_in_handler x.

(** A state change inside a handler. *)
Definition update (f : world -> world) : M unit := fun w => (Resolved tt, f w).

Notation "p ;; q" := (then_ p (fun _ => q) reject)
  (at level 61, right associativity).

(** ** The timer and [_read] *)

(** The ['data'] events due at the current time, in order of arrival. *)
Definition deliver (w : world) : world :=
  let due := filter (fun c => fst c <=? clock w) (inbound w) in
  let later := filter (fun c => negb (fst c <=? clock w)) (inbound w) in
  fold_left (fun w c => on_data (snd c) w) due (set_env (clock w) later w).

(** The first call of a callback of promise [p] settles it. *)
Fixpoint settled (p : nat) (cs : list callback) : option (outcome bytes) :=
  match cs with
  | [] => None
  | ok_callback q b :: r =>
      if (q =? p)%nat then Some (Resolved b) else settled p r
  | ng_callback q s :: r =>
      if (q =? p)%nat then Some (Rejected (EStr s)) else settled p r
  end.

(** The event loop while promise [p] of a read request is awaited: every
    10 ms the data that arrived is appended and the timer callback runs. *)
Fixpoint await (fuel : nat) (p : nat) (w : world) : outcome bytes * world :=
  match fuel with
  | O => (Pending, w)
  | S fuel' =>
      let w1 := deliver (set_env (clock w + 10) (inbound w) w) in
      match tick (clock w1) w1 with
      | (w2, _, Some x) => (Uncaught x, w2)
      | (w2, cs, None) =>
          match settled p cs with
          | Some o => (o, w2)
          | None => await fuel' p w2
          end
      end
  end.

(** Ticks until the latest deadline in the queue has passed. *)
Definition ticks_to_deadline (w : world) : nat :=
  let last := fold_left Z.max (map time_expire (_read_queue w)) (clock w) in
  S (Z.to_nat ((last - clock w) / 10 + 1)).

(** [_read(length, check, timeout)] *)
Definition _read (length : nat) (check : checker) (timeout : option Z) : M bytes :=
  fun w =>
    let timeout := match timeout with Some 0 => 0 | _ => _timeout w end in
    let now := clock w in
    let p := next_promise w in
    let w' :=
      {| _timeout := _timeout w; _busy := _busy w;
         _read_buffer := _read_buffer w;
         _read_queue := _read_queue w ++
           [{| time_in := now; time_expire := now + timeout;
               bytes_needed := length; buffers := []; check := check;
               promise := p |}];
         next_promise := S p; written := written w; flushed := flushed w;
         clock := clock w; inbound := inbound w |} in
    await (ticks_to_deadline w') p w'.

(** ** Serial port *)

(** [_write_serial(buffer)]: [_ser] is set by the constructor and never
    cleared, so the ['serial-port-not-ready'] branch is not taken. *)
Definition _write_serial (buffer : bytes) : M unit :=
  update (fun w => set_serial (written w ++ [buffer]) (flushed w) w).

(** [_concat_and_write_serial(...)] *)
Definition _concat_and_write_serial (args : list arg) : M unit :=
  _write_serial (concat_buffer args).

(** [_ser.flush(...)] *)
Definition flush : M unit :=
  update (fun w => set_serial (written w) (S (flushed w)) w).

(** [setTimeout(..., ms)] awaited by the caller. *)
Definition sleep (ms : Z) : M unit :=
  update (fun w => set_env (clock w + ms) (inbound w) w).

(** [_cancel()] *)
Definition _cancel : M unit :=
  then_ (_concat_and_write_serial [AStr [0; 0; 255; 0; 255; 0]])
        (fun _ => sleep 10 ;; flush ;; resolve tt)
        (fun err_str => resolve tt).

(** ** Transaction engine *)

(** A command is a [Buffer] or a binary string. *)
Inductive command_arg :=
| CmdBuf (b : bytes)
| CmdStr (s : jsstring).

(** The bytes [promise0] writes: the start of a normal frame when
    [len <= 255], of an extended frame otherwise. *)
Definition frame_start (send_buffer : bytes) : bytes :=
  let len := Z.of_nat (List.length send_buffer) in
  let req := [0; 0; 255] in
  if len <=? 255 then
    concat_buffer [AStr req; AStr (fromCharCode len);
                   AStr (fromCharCode (band (- len) 255))]
  else
    let buffer1 :=
      concat_buffer [AStr req; AStr [255; 255];
                     AStr (fromCharCode (band (sar len 8) 255));
                     AStr (fromCharCode (band (sar len 0) 255))] in
    concat_buffer [ABuf buffer1;
                   AStr (fromCharCode (_calculate_checksum (slice_from 2 buffer1)))].

(** The handler of the checksum read, lines 431-447: what is done with the
    caller's [check] once body and checksum bytes are in.  [check_ok] is
    computed inside the [if (check)] block and not used after it; the test
    that decides is [if (!check)]. *)
Definition after_checksum (check : checker) (response_body : bytes) : M bytes :=
  let check_ok :=
    if check_truthy check then
      match check with
      | CheckFun f => f response_body
      | CheckHex s => String.eqb (to_hex response_body) s
      | _ => false
      end
    else false in
  if negb (check_truthy check) then
    _cancel ;; reject (EStr "check-failed")
  else
    resolve response_body.

(** The handler of the 5-byte header read. *)
Definition after_header (check : checker) (response_body : bytes) : M bytes :=
  if is_ (at_ response_body 3) 255 && is_ (at_ response_body 4) 255 then
    (* this._read_serial(3) calls this._data_in_get, which no code defines *)
    throw_in_handler (TypeError "this._data_in_get is not a function")
  else if negb (_calculate_checksum (slice_from 3 response_body) =? 0) then
    _cancel ;; reject (EStr "response-checksum-error")
  else
    let response_len := nth 3 response_body 0 in
    if response_len >? MAX_RW_RESPONSE_LEN then
      _cancel ;; reject (EStr "response-too-long")
    else
      then_ (_read (Z.to_nat response_len) CheckNone None)
        (fun response_body =>
           let dcs := _calculate_checksum response_body in
           then_ (_read 2 (CheckFun (fun buf => is_ (at_ buf 0) dcs
                                                && is_ (at_ buf 1) 0)) None)
             (fun dcs_buffer => after_checksum check response_body)
             (fun err => _cancel ;;
                         reject (EWrap "response-checksum-invalid" err)))
        (fun err => _cancel ;; reject (EWrap "read-response-failed" err)).

(** [_rw_command(command, check)] *)
Definition _rw_command (command : command_arg) (check : checker) : M bytes :=
  let send_buffer :=
    match command with
    | CmdBuf b => b
    | CmdStr s => buffer_from_ascii s
    end in
  let dcs := _calculate_checksum send_buffer in
  flush ;;
  then_ (_write_serial (frame_start send_buffer))
    (fun _ =>
       then_ (_write_serial send_buffer)
         (fun _ =>
            then_ (_concat_and_write_serial [ANum dcs; AStr [0]])
              (fun _ =>
                 then_ (_read 6 (CheckHex "0000ff00ff00") None)
                   (fun res_buffer =>
                      then_ (_read 5 (CheckFun (fun buf =>
                                        starts_with "0000ff" (to_hex buf))) None)
                        (after_header check)
                        (fun err => _cancel ;;
                                    reject (EWrap "no-valid-message" err)))
                   (fun err => _cancel ;; reject (EWrap "no-ack" err)))
              (fun err => reject (EWrap "promise2-failed" err)))
         (fun err => reject (EWrap "promise1-failed" err)))
    (fun err => reject (EWrap "promise0-failed" err)).

(** ** Card command layer *)

(** The validator [_card_command] gives to the engine. *)
Definition card_command_check (buf : bytes) : bool :=
  (4 <=? List.length buf)%nat
  && starts_with "d5a100" (to_hex buf)
  && match at_ buf 3 with
     | Some b => Z.of_nat (List.length buf) =? b + 3
     | None => false
     end.

(** [command_buffer] of [_card_command]. *)
Definition command_buffer (timeout : Z) (command : bytes) : bytes :=
  let command_timeout := if timeout >=? 65536 / 2 then 65535 else timeout * 2 in
  concat_buffer [AStr [212; 160];
                 AStr (int2strbinLE command_timeout 2);
                 AStr (fromCharCode (Z.of_nat (List.length command) + 1));
                 ABuf command].

(** [_card_command(command)]: one parameter; further arguments of a call
    are dropped. *)
Definition _card_command (command : bytes) : M bytes :=
  fun w =>
    then_ (_rw_command (CmdBuf (command_buffer (_timeout w) command))
                       (CheckFun card_command_check))
      (fun buffer => resolve (slice_from 4 buffer))
      (fun error => reject (EWrap "ex-command-failed" error))
      w.

(** ** Device session *)

Record card := { idm : bytes; pmn : bytes }.

(** What a caller may pass as [system_code]: a Buffer, a number or a
    string, which [concat_buffer] accepts, or any other value that
    [JSON.stringify] renders ([undefined], [null], an object, ...), given
    by the text it has in the message [concat_buffer] throws. *)
Inductive jsvalue :=
| JArg (a : arg)
| JOther (json : string).

Coercion JArg : arg >-> jsvalue.

(** [polling(system_code)].  [concat_buffer] is called inside the executor
    of the promise [polling] returns, after [_busy] is set: what it throws
    rejects that promise, and nothing clears the flag. *)
Definition polling (system_code : jsvalue) : M (option card) :=
  fun w =>
    if _busy w then (Rejected (EStr "busy"), w)
    else
      (update (set_busy true) ;;
       match system_code with
       | JOther json =>
           reject (EStr ("expecting number,string,Buffer ; received : "
                         ++ json))
       | JArg system_code =>
           then_ (_rw_command
                    (CmdBuf (concat_buffer [AStr [212; 74; 1; 1; 0];
                                            system_code; AStr [0; 15]]))
                    (CheckFun (fun buf =>
                       let hex := to_hex buf in
                       starts_with "d54b01011201" hex
                       || starts_with "d54b00" hex)))
             (fun response_buffer1 =>
                update (set_busy false) ;;
                let hex := to_hex response_buffer1 in
                if starts_with "d54b01011201" hex then
                  resolve (Some {| idm := slice 6 (6 + 8) response_buffer1;
                                   pmn := slice 14 (14 + 8) response_buffer1 |})
                else resolve None)
             (fun err =>
                update (set_busy false) ;;
                reject (EWrap "InListPassiveTarget-failed" err))
       end) w.

(** ** Service and block reader *)

(** A call [f(a, extra)] of a function declared with one parameter:
    [extra] is evaluated and dropped. *)
Definition call_with_surplus {A B C} (f : A -> B) (a : A) (extra : C) : B := f a.

(** [buf.toString('ascii')]: the high bit of each byte is cleared. *)
Definition to_ascii (b : bytes) : jsstring := map (fun c => Z.land c 127) b.

Fixpoint jsstring_starts_with (p s : jsstring) : bool :=
  match p, s with
  | [], _ => true
  | x :: p', y :: s' => (x =? y) && jsstring_starts_with p' s'
  | _ :: _, [] => false
  end.

(** [Rcs620s._concat_buffer(...)] (static): buffers as they are, strings
    through [new Buffer(arg, 'ascii')].  The driver calls it with buffers
    and strings only, which is what [command_arg] holds. *)
Definition _concat_buffer (args : list command_arg) : bytes :=
  List.concat
    (map (fun a => match a with
                   | CmdBuf b => b
                   | CmdStr s => buffer_from_ascii s
                   end) args).

(** [_request_service(idm, service_code)] *)
Definition _request_service (idm : bytes) (service_code : jsstring) : M unit :=
  let command :=
    _concat_buffer [CmdStr [2]; CmdBuf idm; CmdStr [1]; CmdStr service_code] in
  let res_prefix_expected := to_hex (_concat_buffer [CmdStr [3]; CmdBuf idm]) in
  then_ (call_with_surplus _card_command command
           (fun buf : bytes =>
              (List.length buf =? 12)%nat
              && starts_with res_prefix_expected (to_hex buf)
              && negb (String.eqb (to_hex (slice_from 10 buf)) "ffff")))
    (fun response_buffer => resolve tt)
    (fun err => reject (EWrap "request-service-failed" err)).

(** [_read_without_encryption(idm, service_code, block_number)] *)
Definition _read_without_encryption (idm : bytes) (service_code : jsstring)
    (block_number : Z) : M bytes :=
  let command :=
    _concat_buffer [CmdStr [6]; CmdBuf idm; CmdStr [1]; CmdStr service_code;
                    CmdStr [1]; CmdStr [128];
                    CmdStr (fromCharCode block_number)] in
  let res_prefix_expected := to_ascii (_concat_buffer [CmdStr [7]; CmdBuf idm]) in
  then_ (call_with_surplus _card_command command
           (fun buf : bytes =>
              (List.length buf =? 28)%nat
              && jsstring_starts_with res_prefix_expected (to_ascii buf)))
    (fun response_buffer => resolve (slice_from 12 response_buffer))
    (fun err => reject (EWrap "rw-command-failed" err)).

(** [func()] called inside a [.then] handler whose promise is returned
    to the caller: what [func] throws rejects that promise. *)
Definition called_in_handler {A} (func : M A) : M A :=
  fun w =>
    match func w with
    | (Thrown x, w') => (Rejected (reason_of x), w')
    | other => other
    end.

(** [serial(funcs)]: the promises run one after the other; each value is
    appended to the array of results with [Array.prototype.concat].  The
    values are buffers, as everywhere in the driver: [concat] appends a
    buffer as one element (an array value it would spread). *)
Definition serial (funcs : list (M bytes)) : M (list bytes) :=
  fold_left
    (fun promise func =>
       then_ promise
         (fun result =>
            then_ (called_in_handler func)
              (fun a => resolve (result ++ [a])) reject)
         reject)
    funcs (resolve []).

(** [_read_without_encryption2(idm, service_code, block_number, length)].
    The rejection handler of a task first evaluates [colors.bgRed...] for
    its [console.warn]; the file neither declares nor imports [colors], so
    the [task_ng] call after it is not reached. *)
Definition _read_without_encryption2 (idm : bytes) (service_code : jsstring)
    (block_number length : Z) : M bytes :=
  update (set_busy true) ;;
  let tasks :=
    map (fun i =>
           then_ (_read_without_encryption idm service_code (block_number + i))
             (fun buf => resolve buf)
             (fun err =>
                throws_before (ReferenceError "colors is not defined")
                  (reject (EBlock "read-without-encryption-failed" err
                                  (block_number + i)))))
        (range length) in
  then_ (serial tasks)
    (fun results => update (set_busy false) ;; resolve (List.concat results))
    (fun err => update (set_busy false) ;;
                reject (EWrap "read-without-encryption2-task-error" err)).

(** [read_block(idm, service_code, block_number, length)] *)
Definition read_block (idm : bytes) (service_code : jsstring)
    (block_number length : Z) : M bytes :=
  then_ (_request_service idm service_code)
    (fun _ =>
       then_ (_read_without_encryption2 idm service_code block_number length)
         (fun buf => resolve buf)
         (fun err => reject (EWrap "read-without-encryption2-failed" err)))
    (fun err => reject (EWrap "request-service-failed" err)).

(** A service descriptor [{service_code, blocks, processing}]; each field
    may be missing. *)
Record service (T : Type) := {
  service_code : option jsstring;
  blocks : option Z;
  processing : option (list bytes -> T)
}.
Arguments service_code {T} s.
Arguments blocks {T} s.
Arguments processing {T} s.

(** [!sevice.service_code], [!sevice.blocks] *)
Definition not_string (v : option jsstring) : bool :=
  match v with Some (_ :: _) => false | _ => true end.
Definition not_number (v : option Z) : bool :=
  match v with Some n => n =? 0 | None => true end.

(** [read_service(idm, sevice)] *)
Definition read_service {T} (idm : bytes) (sevice : service T) : M T :=
  fun w =>
    if not_string (service_code sevice) || not_number (blocks sevice) then
      (Thrown (ThrownString
                 "expecting service_dict to be {service_code:xx, blocks:xx}"), w)
    else
      let service_code := match service_code sevice with Some s => s | None => [] end in
      let blocks := match blocks sevice with Some n => n | None => 0 end in
      let funcs :=
        map (fun i => read_block idm service_code i blocks) (range blocks) in
      then_ (serial funcs)
        (fun results =>
           match processing sevice with
           | Some processing => resolve (processing results)
           | None => throw_in_handler (TypeError "processing is not a function")
           end)
        (fun err => reject err) w.

(** [Rcs620s.SYSTEM_CODE.SUICA] *)
Definition SYSTEM_CODE_SUICA : jsstring := [0; 3].

Record properties := { balance : option Z }.

(** [Rcs620s.SERVICES.SUICA.PROPERTIES] *)
Definition SUICA_PROPERTIES : service (option properties) :=
  {| service_code := Some [139; 0];
     blocks := Some 1;
     processing := Some (fun results =>
       match nth_error results 0 with
       | None => None
       | Some data => Some {| balance := read_number data 11 2 LE |}
       end) |}.

(** ** Device bring-up and the other service descriptors *)

(** [init_device()] *)
Definition init_device : M unit :=
  then_ (_rw_command (CmdStr [212; 50; 2; 0; 0; 0]) (CheckHex "d533"))
    (fun response_buffer1 =>
       then_ (_rw_command (CmdStr [212; 50; 5; 0; 0; 0]) (CheckHex "d533"))
         (fun response_buffer2 =>
            then_ (_rw_command (CmdStr [212; 50; 129; 183]) (CheckHex "d533"))
              (fun response_buffer3 => resolve tt)
              (fun err => reject (EWrap "RFConfiguration-2-failed" err)))
         (fun err => reject (EWrap "RFConfiguration-1-failed" err)))
    (fun err => reject (EWrap "open-device-failed" err)).

(** [Rcs620s.SERVICES.SUICA.USAGE_HISTORY] and the other descriptors
    marked as work in progress: none has a [processing]. *)
Definition USAGE_HISTORY {T} : service T :=
  {| service_code := Some [15; 9]; blocks := Some 20; processing := None |}.
Definition TICKET_HISTORY {T} : service T :=
  {| service_code := Some [143; 16]; blocks := Some 3; processing := None |}.
Definition SF_TICKET_HISTORY {T} : service T :=
  {| service_code := Some [203; 16]; blocks := Some 3; processing := None |}.
Definition FARE_HISTORY {T} : service T :=
  {| service_code := Some [75; 129]; blocks := Some 36; processing := None |}.

(** ** Vocabulary of the statements *)

(** The two-byte little-endian encoding of a number, low byte first. *)
Definition le2 (v : Z) : bytes := [v mod 256; (v / 256) mod 256].

(** Steps run strictly one after the other, each started only when the one
    before has resolved; the values are collected in order and the first
    step that does not resolve ends the run with its own outcome, a step
    that throws counting as rejected with what it threw.  This is the
    reading of "sequentially, in ascending order" that [serial] is compared
    with. *)
Fixpoint in_order {A} (steps : list (M A)) (results : list A) : M (list A) :=
  match steps with
  | [] => resolve results
  | step :: rest =>
      fun w =>
        match step w with
        | (Resolved a, w') => in_order rest (results ++ [a]) w'
        | (Rejected e, w') => (Rejected e, w')
        | (Pending, w') => (Pending, w')
        | (Thrown x, w') => (Rejected (reason_of x), w')
        | (Uncaught x, w') => (Uncaught x, w')
        end
  end.


(** [w'] has everything [w] had written, and possibly more. *)
Definition wrote_since (w w' : world) : Prop :=
  exists more, written w' = written w ++ more.

(** An operation that only ever appends to what was written. *)
Definition appends {A} (p : M A) : Prop :=
  forall w, wrote_since w (snd (p w)).

(** The card commands found in what was written to the port: the writes
    that start with [D4 A0], without their 5-byte envelope header. *)
Definition sent_card_commands (w : world) : list bytes :=
  map (skipn 5)
      (filter (fun b => match b with
                        | 212 :: 160 :: _ => true
                        | _ => false
                        end) (written w)).

(** Whether the assembled bytes pass the [check] of a read request, as the
    timer decides it: no check (or an empty string) passes everything. *)
Definition check_passes (c : checker) (b : bytes) : bool :=
  if check_truthy c then
    match c with
    | CheckFun f => f b
    | CheckHex s => String.eqb s (to_hex b)
    | _ => false
    end
  else true.

(** The state at the next run of the timer: 10 ms later, the data that is
    due appended. *)
Definition at_next_tick (w : world) : world :=
  deliver (set_env (clock w + 10) (inbound w) w).

(** By the next run of the timer, the bytes [b] are at the front of what
    has been received and not yet consumed. *)
Definition received_by_next_tick (w : world) (b : bytes) : Prop :=
  exists tail, _read_buffer (at_next_tick w) = Some (b ++ tail).

(** A byte value. *)
Definition is_byte (x : Z) : Prop := 0 <= x < 256.

(** What one ['data'] event does to the receive buffer. *)
Definition append_chunk (rb : option bytes) (c : Z * bytes) : option bytes :=
  Some (match rb with None => snd c | Some r => r ++ snd c end).

(** [w'] has the settings, the flag and the port of [w]. *)
Definition untouched (w w' : world) : Prop :=
  _timeout w' = _timeout w /\ _busy w' = _busy w
  /\ written w' = written w /\ flushed w' = flushed w.

(** No read is pending and the bytes [b] are at the front of the receive
    buffer. *)
Definition idle_with (w : world) (b : bytes) : Prop :=
  _read_queue w = [] /\ exists tail, _read_buffer w = Some (b ++ tail).

(** Nothing received is waiting to be read. *)
Definition nothing_buffered (w : world) : Prop :=
  _read_buffer w = None \/ _read_buffer w = Some [].

(** No read is pending, exactly [b] is buffered, and nothing more arrives
    until after time [t]. *)
Definition holds_until (w : world) (b : bytes) (t : Z) : Prop :=
  _read_queue w = [] /\ _read_buffer w = Some b
  /\ Forall (fun chunk => t < fst chunk) (inbound w).

(** A script of replies in which each arrives promptly: after its command
    was written, and before the timer runs next.  The first command is
    written at time [start]; every answered transaction takes four runs of
    the timer, 40 ms, so the next command is written at [start + 40]. *)
Fixpoint prompt_replies (start : Z) (script : list (Z * bytes)) : Prop :=
  match script with
  | [] => True
  | (t, reply) :: later =>
      start < t <= start + 10 /\ prompt_replies (start + 40) later
  end.

(** The reader is idle and what it will receive are the [replies], one per
    command to come, each in one piece and promptly: nothing reaches the
    driver before the command it answers is written. *)
Definition awaits_prompt_replies (w : world) (replies : list bytes) : Prop :=
  _read_queue w = [] /\ nothing_buffered w
  /\ map snd (inbound w) = replies
  /\ prompt_replies (clock w) (inbound w).

(** The cancel frame. *)
Definition cancel_frame : bytes := [0; 0; 255; 0; 255; 0].

(** The result [res] of the part of a transaction that starts in state
    [base]: settings and flag as in [base]; the cancel frame written and
    the port flushed once more exactly when the result is a rejection,
    nothing written and nothing flushed otherwise. *)
Definition cancels_iff_rejected (base : world) (res : outcome bytes * world)
  : Prop :=
  _timeout (snd res) = _timeout base /\ _busy (snd res) = _busy base
  /\ written (snd res)
     = written base
       ++ match fst res with Rejected _ => [cancel_frame] | _ => [] end
  /\ flushed (snd res)
     = (flushed base
        + match fst res with Rejected _ => 1 | _ => 0 end)%nat.

(** What a transaction writes for a command before it reads: the frame
    start, the command, the checksum with its closing zero. *)
Definition transaction_writes (send_buffer : bytes) : list bytes :=
  [frame_start send_buffer; send_buffer;
   concat_buffer [ANum (_calculate_checksum send_buffer); AStr [0]]].

(** ** Scenarios: what the reader and the card send *)

Definition ACK : bytes := [0; 0; 255; 0; 255; 0].

(** What a healthy reader sends back for one transaction: the ACK, then a
    normal frame around [body]. *)
Definition device_reply (body : bytes) : bytes :=
  let len := Z.of_nat (List.length body) in
  ACK ++ [0; 0; 255; len; (- len) mod 256] ++ body
      ++ [(- fold_left Z.add body 0) mod 256; 0].

(** The reader's reply to a card command whose card answer is [payload]. *)
Definition card_reply (payload : bytes) : bytes :=
  device_reply ([213; 161; 0; Z.of_nat (List.length payload) + 1] ++ payload).

(** A script in which every reply arrives 5 ms after its command was
    written, the first command being written at [start]. *)
Fixpoint promptly (start : Z) (replies : list bytes) : list (Z * bytes) :=
  match replies with
  | [] => []
  | reply :: later => (start + 5, reply) :: promptly (start + 40) later
  end.

Definition idm0 : bytes := [1; 2; 3; 4; 5; 6; 7; 8].

Definition balance_block : bytes :=
  [0; 0; 0; 0; 0; 0; 0; 0; 0; 0; 0; 232; 3; 0; 0; 0].

(** A card that has the service and answers the block read. *)
Definition balance_world : world :=
  constructor 1000
    [(10, card_reply ([3] ++ idm0 ++ [1; 8; 0]));
     (30, card_reply ([7] ++ idm0 ++ [0; 0; 1] ++ balance_block))].

Definition request_a : read_req :=
  {| time_in := 0; time_expire := 1000; bytes_needed := 6; buffers := [];
     check := CheckHex "0000ff00ff00"; promise := 0 |}.

Definition request_b : read_req :=
  {| time_in := 500; time_expire := 1500; bytes_needed := 5; buffers := [];
     check := CheckNone; promise := 1 |}.

(** Two reads queued at times 0 and 500, nothing received, clock at 1000. *)
Definition two_pending : world :=
  {| _timeout := 1000; _busy := false; _read_buffer := None;
     _read_queue := [request_a; request_b]; next_promise := 2;
     written := []; flushed := 0; clock := 1000; inbound := [] |}.

(** The reply [03 <idm> 01 FF FF]: service not present. *)
Definition no_service_world : world :=
  constructor 1000
    [(10, card_reply ([3] ++ idm0 ++ [1; 255; 255]));
     (30, card_reply ([7] ++ idm0 ++ [0; 0; 1] ++ balance_block))].

Definition block_of (i : Z) : bytes := repeat i 16.

Definition block_reply (i : Z) : bytes :=
  card_reply ([7] ++ idm0 ++ [0; 0; 1] ++ block_of i).

Definition service_reply : bytes := card_reply ([3] ++ idm0 ++ [1; 8; 0]).

(** A card that answers every command, each reply arriving 5 ms after its
    command was written; block [i] holds 16 bytes [i]. *)
Definition two_block_world : world :=
  constructor 1000
    [(5, service_reply); (45, block_reply 0); (85, block_reply 1);
     (125, service_reply); (165, block_reply 1); (205, block_reply 2)].

Definition two_block_service : service (list bytes) :=
  {| service_code := Some [143; 16]; blocks := Some 2;
     processing := Some (fun results => results) |}.

(** A reader that answers the block read with something that is not an
    ACK. *)
Definition bad_ack_world : world :=
  constructor 1000 [(10, [0; 0; 255; 0; 255; 1])].

(** * Properties *)

(** ** 32-bit conversions *)

Lemma to_int32_congr (x : Z) : exists q, to_int32 x = x + q * 2 ^ 32.
Proof.
  unfold to_int32.
  exists (- ((x + 2 ^ 31) / 2 ^ 32)).
  pose proof (Z.div_mod (x + 2 ^ 31) (2 ^ 32)) as H.
  lia.
Qed.

Lemma to_int32_mod (x m : Z) :
  (m | 2 ^ 32) -> to_int32 x mod m = x mod m.
Proof.
  intros [k Hk].
  destruct (to_int32_congr x) as [q ->].
  rewrite Hk.
  replace (x + q * (k * m)) with (x + (q * k) * m) by lia.
  apply Z_mod_plus_full.
Qed.

Lemma to_int32_small (x : Z) : - 2 ^ 31 <= x < 2 ^ 31 -> to_int32 x = x.
Proof.
  intros H. unfold to_int32.
  rewrite Z.mod_small; lia.
Qed.

Lemma band_255 (x : Z) : band x 255 = x mod 256.
Proof.
  unfold band.
  rewrite (to_int32_small 255) by lia.
  change 255 with (Z.ones 8).
  rewrite Z.land_ones by lia.
  apply to_int32_mod.
  exists (2 ^ 24). reflexivity.
Qed.

Lemma land_255 (x : Z) : Z.land x 255 = x mod 256.
Proof.
  change 255 with (Z.ones 8).
  now rewrite Z.land_ones by lia.
Qed.

Lemma mod_65536_256 (x : Z) : (x mod 65536) mod 256 = x mod 256.
Proof.
  apply Z.mod_mod_divide.
  exists 256. reflexivity.
Qed.

(** A character made from a number and written to a buffer is the number
    modulo 256. *)
Lemma char_byte (n : Z) :
  buffer_from_ascii (fromCharCode n) = [n mod 256].
Proof.
  unfold buffer_from_ascii, fromCharCode. simpl.
  now rewrite land_255, mod_65536_256.
Qed.

Lemma sar8_byte (x : Z) : (sar x 8) mod 256 = (x / 256) mod 256.
Proof.
  unfold sar.
  rewrite Z.shiftr_div_pow2 by lia.
  change (2 ^ 8) with 256.
  assert (E : forall y, (y / 256) mod 256 = (y mod 65536) / 256).
  { intros y.
    pose proof (Z.rem_mul_r y 256 256 ltac:(lia) ltac:(lia)) as R.
    change (256 * 256) with 65536 in R.
    rewrite R.
    apply Z.div_unique with (r := y mod 256); [| lia].
    left. apply Z.mod_pos_bound. lia. }
  rewrite !E. f_equal.
  apply to_int32_mod. exists 65536. reflexivity.
Qed.

Lemma int2strbinLE_2 (v : Z) :
  buffer_from_ascii (int2strbinLE v 2) = le2 v.
Proof.
  unfold le2. cbn [int2strbinLE app].
  change (fromCharCode (band v 255) ++ fromCharCode (band (sar v 8) 255) ++ [])
    with ([band v 255 mod 65536; band (sar v 8) 255 mod 65536]).
  unfold buffer_from_ascii. cbn [map].
  rewrite !land_255, !mod_65536_256, !band_255, !Z.mod_mod by lia.
  now rewrite sar8_byte.
Qed.

(** ** Checksum *)

(** C5. For every byte sequence [b], [_calculate_checksum b] is one byte, a
    value between 0 and 255, and the sum of the bytes of [b] plus the
    checksum is 0 modulo 256. *)
Theorem calculate_checksum_complements (b : bytes) :
  0 <= _calculate_checksum b <= 255 /\
  (fold_left Z.add b 0 + _calculate_checksum b) mod 256 = 0.
Proof.
  unfold _calculate_checksum.
  rewrite band_255.
  set (s := fold_left Z.add b 0).
  split.
  - pose proof (Z.mod_pos_bound (- s) 256). lia.
  - rewrite Z.add_mod_idemp_r by lia.
    now replace (s + - s) with 0 by lia.
Qed.

(** ** What reaches the serial port *)

Lemma wrote_since_refl (w : world) : wrote_since w w.
Proof. exists []. now rewrite app_nil_r. Qed.

Lemma wrote_since_trans (w1 w2 w3 : world) :
  wrote_since w1 w2 -> wrote_since w2 w3 -> wrote_since w1 w3.
Proof.
  intros [m1 H1] [m2 H2]. exists (m1 ++ m2).
  now rewrite H2, H1, app_assoc.
Qed.

Lemma wrote_since_eq (w w' : world) : written w' = written w -> wrote_since w w'.
Proof. intros H. exists []. now rewrite app_nil_r. Qed.

Lemma appends_then {A B} (p : M A) (f : A -> M B) (g : error -> M B) :
  appends p -> (forall a, appends (f a)) -> (forall e, appends (g e)) ->
  appends (then_ p f g).
Proof.
  intros Hp Hf Hg w. unfold then_.
  specialize (Hp w). destruct (p w) as [[a | e | | x | x] w']; cbn [snd] in *;
    try assumption.
  - eapply wrote_since_trans; [exact Hp | apply Hf].
  - eapply wrote_since_trans; [exact Hp | apply Hg].
Qed.

Lemma appends_resolve {A} (a : A) : appends (resolve a).
Proof. intros w. apply wrote_since_refl. Qed.

Lemma appends_reject {A} (e : error) : appends (@reject A e).
Proof. intros w. apply wrote_since_refl. Qed.

Lemma appends_throw_in_handler {A} (x : exn) : appends (@throw_in_handler A x).
Proof. intros w. apply wrote_since_refl. Qed.

Lemma appends_write (b : bytes) : appends (_write_serial b).
Proof. intros w. now exists [b]. Qed.

Lemma appends_flush : appends flush.
Proof. intros w. now apply wrote_since_eq. Qed.

Lemma appends_sleep (ms : Z) : appends (sleep ms).
Proof. intros w. now apply wrote_since_eq. Qed.

Lemma on_data_written (b : bytes) (w : world) :
  written (on_data b w) = written w.
Proof. unfold on_data. now destruct (_read_buffer w). Qed.

Lemma deliver_written (w : world) : written (deliver w) = written w.
Proof.
  unfold deliver.
  set (w0 := set_env _ _ w).
  change (written w) with (written w0).
  generalize (filter (fun c => fst c <=? clock w) (inbound w)) w0.
  induction l as [| c l IH]; intros v; cbn [fold_left].
  - reflexivity.
  - now rewrite IH, on_data_written.
Qed.

Lemma tick_written (now : Z) (w : world) :
  written (fst (fst (tick now w))) = written w.
Proof.
  unfold tick.
  destruct (_read_queue w) as [| r rest]; [reflexivity |].
  destruct (now >=? time_expire r); [reflexivity |].
  destruct (_read_buffer w) as [rb |]; [| reflexivity].
  cbv zeta.
  match goal with |- context [(?n =? 0)%nat] => destruct (n =? 0)%nat end;
    reflexivity.
Qed.

Lemma await_written (fuel p : nat) (w : world) :
  written (snd (await fuel p w)) = written w.
Proof.
  revert w. induction fuel as [| fuel IH]; intros w; cbn [await].
  - reflexivity.
  - set (w1 := deliver _).
    assert (H1 : written w1 = written w)
      by (unfold w1; now rewrite deliver_written).
    pose proof (tick_written (clock w1) w1) as Ht.
    destruct (tick (clock w1) w1) as [[w2 cs] [x |]]; cbn [fst snd] in *.
    + congruence.
    + destruct (settled p cs); cbn [snd].
      * congruence.
      * rewrite IH. congruence.
Qed.

Lemma appends_read (length : nat) (c : checker) (t : option Z) :
  appends (_read length c t).
Proof.
  intros w. apply wrote_since_eq. unfold _read.
  now rewrite await_written.
Qed.

Lemma appends_cancel : appends _cancel.
Proof.
  unfold _cancel, _concat_and_write_serial.
  apply appends_then; intros.
  - apply appends_write.
  - repeat (apply appends_then; intros;
            auto using appends_sleep, appends_flush, appends_resolve,
                       appends_reject).
  - apply appends_resolve.
Qed.

Lemma appends_cancel_reject {A} (e : error) : appends (_cancel ;; @reject A e).
Proof.
  apply appends_then; intros;
    auto using appends_cancel, appends_reject.
Qed.

Lemma appends_after_checksum (c : checker) (body : bytes) :
  appends (after_checksum c body).
Proof.
  unfold after_checksum.
  destruct (negb (check_truthy c)).
  - apply appends_cancel_reject.
  - apply appends_resolve.
Qed.

Lemma appends_after_header (c : checker) (header : bytes) :
  appends (after_header c header).
Proof.
  unfold after_header.
  destruct (_ && _); [apply appends_throw_in_handler |].
  destruct (negb _); [apply appends_cancel_reject |].
  destruct (_ >? _); [apply appends_cancel_reject |].
  apply appends_then; intros.
  - apply appends_read.
  - apply appends_then; intros.
    + apply appends_read.
    + apply appends_after_checksum.
    + apply appends_cancel_reject.
  - apply appends_cancel_reject.
Qed.

(** The transaction engine first writes the frame start, then the command
    bytes. *)
Lemma rw_command_writes (command : command_arg) (c : checker) (w : world) :
  let send_buffer :=
    match command with CmdBuf b => b | CmdStr s => buffer_from_ascii s end in
  exists more,
    written (snd (_rw_command command c w)) =
    written w ++ frame_start send_buffer :: send_buffer :: more.
Proof.
  intros send_buffer.
  unfold _rw_command. fold send_buffer.
  set (k := then_ (_concat_and_write_serial _) _ _).
  assert (Hk : appends k).
  { unfold k. apply appends_then; intros.
    - apply appends_write.
    - apply appends_then; intros.
      + apply appends_read.
      + apply appends_then; intros.
        * apply appends_read.
        * apply appends_after_header.
        * apply appends_cancel_reject.
      + apply appends_cancel_reject.
    - apply appends_reject. }
  unfold then_ at 1 2 3. unfold flush, _write_serial, update. cbn [fst snd].
  match goal with |- context [k ?v] => destruct (Hk v) as [more Hm] end.
  exists more. rewrite Hm. cbn [written set_serial].
  now rewrite <- !app_assoc.
Qed.

(** ** Card command envelope *)

Lemma command_buffer_envelope (timeout : Z) (command : bytes) :
  command_buffer timeout command =
  [212; 160] ++ le2 (Z.min 65535 (2 * timeout))
    ++ [(Z.of_nat (List.length command) + 1) mod 256] ++ command.
Proof.
  unfold command_buffer, concat_buffer.
  cbn [map List.concat arg_bytes].
  rewrite int2strbinLE_2, char_byte, app_nil_r.
  change (buffer_from_ascii [212; 160]) with [212; 160].
  do 2 f_equal.
  change (65536 / 2) with 32768.
  rewrite Z.geb_leb.
  destruct (Z.leb_spec 32768 timeout).
  - now rewrite Z.min_l by lia.
  - rewrite Z.min_r by lia. now rewrite Z.mul_comm.
Qed.

(** C7. For every command of length [L] and every configured timeout [t],
    [_card_command] hands the transaction engine exactly the envelope
    [D4 A0], the two-byte little-endian encoding of [min(0xFFFF, 2*t)], the
    length [L + 1] as one byte, then the command bytes, and the engine puts
    it on the wire right after the frame start; when the engine resolves
    with a body, [_card_command] resolves with that body without its first
    4 bytes.  The length byte is [L + 1] reduced modulo 256, which is
    [L + 1] itself for every command shorter than 255 bytes. *)
Theorem card_command_envelope (command : bytes) (w : world) :
  let envelope :=
    [212; 160] ++ le2 (Z.min 65535 (2 * _timeout w))
      ++ [(Z.of_nat (List.length command) + 1) mod 256] ++ command in
  (exists more,
      written (snd (_card_command command w)) =
      written w ++ frame_start envelope :: envelope :: more)
  /\ _card_command command w =
     (let (r, w') :=
        _rw_command (CmdBuf envelope) (CheckFun card_command_check) w in
      (match r with
       | Resolved body => Resolved (skipn 4 body)
       | Rejected e => Rejected (EWrap "ex-command-failed" e)
       | Pending => Pending
       | Thrown x => Thrown x
       | Uncaught x => Uncaught x
       end, w'))
  /\ (Z.of_nat (List.length command) < 255 ->
      (Z.of_nat (List.length command) + 1) mod 256
      = Z.of_nat (List.length command) + 1).
Proof.
  intros envelope.
  assert (E : _card_command command w =
     (let (r, w') :=
        _rw_command (CmdBuf envelope) (CheckFun card_command_check) w in
      (match r with
       | Resolved body => Resolved (skipn 4 body)
       | Rejected e => Rejected (EWrap "ex-command-failed" e)
       | Pending => Pending
       | Thrown x => Thrown x
       | Uncaught x => Uncaught x
       end, w'))).
  { unfold _card_command, then_.
    rewrite command_buffer_envelope. fold envelope.
    now destruct (_rw_command _ _ w) as [[body | e | | x | x] w']. }
  split; [| split; [exact E | intros H; apply Z.mod_small; lia]].
  rewrite E.
  destruct (rw_command_writes (CmdBuf envelope) (CheckFun card_command_check) w)
    as [more Hm].
  exists more.
  destruct (_rw_command _ _ w) as [r w']. exact Hm.
Qed.

(** ** Balance service *)

(** C9. Reading the balance service (one block, shaped by a little-endian
    2-byte number at offset 11): when the 16-byte block obtained has [E8] at
    offset 11 and [03] at offset 12, [read_service] resolves with balance
    1000. *)
Theorem balance_service_reads_1000 (idm : bytes) (w w' : world) (block : bytes) :
  read_block idm [139; 0] 0 1 w = (Resolved block, w') ->
  List.length block = 16%nat ->
  at_ block 11 = Some 232 ->
  at_ block 12 = Some 3 ->
  read_service idm SUICA_PROPERTIES w =
  (Resolved (Some {| balance := Some 1000 |}), w').
Proof.
  intros Hread _ H11 H12.
  unfold read_service, SUICA_PROPERTIES, serial.
  cbn [service_code blocks processing not_string not_number orb].
  change (1 =? 0) with false. cbv iota.
  change (range 1) with [0].
  cbn [map fold_left].
  unfold then_ at 1 2 3. unfold resolve at 1. cbn [app].
  unfold called_in_handler. rewrite Hread.
  unfold resolve, read_number.
  cbn [nth_error Nat.eqb seq map Nat.add Nat.sub].
  rewrite H11, H12.
  reflexivity.
Qed.

Lemma balance_service_reads_1000_witness :
  read_service idm0 SUICA_PROPERTIES balance_world =
  (Resolved (Some {| balance := Some 1000 |}),
   snd (read_block idm0 [139; 0] 0 1 balance_world)).
Proof.
  apply (balance_service_reads_1000 idm0 balance_world _ balance_block).
  - vm_compute. reflexivity.
  - reflexivity.
  - reflexivity.
  - reflexivity.
Defined.

(** ** Descriptor check of [read_service] *)

(** C10. When the descriptor has no [service_code] or an empty one, or no
    [blocks] or [blocks] zero, [read_service] throws a string, returns no
    promise, and leaves the port and the rest of the state untouched. *)
Theorem read_service_throws_on_bad_descriptor
    {T : Type} (idm : bytes) (sevice : service T) (w : world) :
  service_code sevice = None \/ service_code sevice = Some [] \/
  blocks sevice = None \/ blocks sevice = Some 0 ->
  read_service idm sevice w =
  (Thrown (ThrownString
             "expecting service_dict to be {service_code:xx, blocks:xx}"), w).
Proof.
  intros H. unfold read_service.
  assert (C : not_string (service_code sevice) || not_number (blocks sevice)
              = true).
  { destruct H as [-> | [-> | [-> | ->]]]; cbn;
      try reflexivity; apply orb_true_r. }
  now rewrite C.
Qed.

Lemma read_service_throws_on_bad_descriptor_witness :
  read_service idm0
    {| service_code := Some [139; 0]; blocks := Some 0;
       processing := Some (fun results : list bytes => results) |}
    balance_world =
  (Thrown (ThrownString
             "expecting service_dict to be {service_code:xx, blocks:xx}"),
   balance_world).
Proof.
  apply (read_service_throws_on_bad_descriptor idm0 _ balance_world).
  right. right. right. reflexivity.
Defined.

(** ** Validator of a transaction *)

(** Once body and checksum bytes are in, any [check] that is a function or a
    non-empty string lets the body through, whatever it would say. *)
Lemma after_checksum_truthy (c : checker) (body : bytes) (w : world) :
  check_truthy c = true -> after_checksum c body w = (Resolved body, w).
Proof. intros H. unfold after_checksum. now rewrite H. Qed.

(** With no [check] the transaction is cancelled and fails. *)
Lemma after_checksum_absent (body : bytes) (w : world) :
  fst (after_checksum CheckNone body w) = Rejected (EStr "check-failed").
Proof. reflexivity. Qed.

(** C1, on the code.  Open-device command [D4 32 02 00 00 00] with the exact
    hex validator [d533]; the reader acknowledges and answers with the body
    [7F].  The validator fails on [7F], yet the transaction resolves with
    [7F] and no cancel frame is written: the port saw only the frame start,
    the command and its checksum.  The same holds for every predicate. *)
Theorem rw_command_resolves_when_validator_fails :
  let w := constructor 1000 [(10, device_reply [127])] in
  let r := _rw_command (CmdStr [212; 50; 2; 0; 0; 0]) (CheckHex "d533") w in
  String.eqb (to_hex [127]) "d533" = false
  /\ fst r = Resolved [127]
  /\ written (snd r) = [[0; 0; 255; 6; 250]; [212; 50; 2; 0; 0; 0]; [248; 0]]
  /\ fst (_rw_command (CmdStr [212; 50; 2; 0; 0; 0])
                      (CheckFun (fun _ => false)) w) = Resolved [127].
Proof. vm_compute. repeat split. Qed.

(** ** Timeout of the head request *)

(** Whenever the deadline of the head request has passed, the timer callback
    rejects it with [timeout], throws, and leaves the whole state, queue
    included, as it was. *)
Lemma tick_expired_head (now : Z) (w : world) (r : read_req) (rest : list read_req) :
  _read_queue w = r :: rest -> time_expire r <= now ->
  tick now w =
  (w, [ng_callback (promise r) "timeout"],
   Some (TypeError "this._read_buffer.shift is not a function")).
Proof.
  intros Hq Hexp. unfold tick. rewrite Hq.
  now rewrite (proj2 (Z.geb_le now (time_expire r)) Hexp).
Qed.

(** C2, on the code.  When the deadline of the head request passes, the
    request is rejected with [timeout], but the timer callback then calls
    [shift] on [_read_buffer], which throws: the head stays in
    [_read_queue].  The next tick finds the same expired head again, and
    data that arrives later never reaches the second request. *)
Theorem timeout_leaves_head_in_queue :
  tick 1000 two_pending =
    (two_pending, [ng_callback 0 "timeout"],
     Some (TypeError "this._read_buffer.shift is not a function"))
  /\ _read_queue (fst (fst (tick 1000 two_pending))) = [request_a; request_b]
  /\ _read_queue (fst (fst (tick 1000 two_pending))) <> [request_b]
  /\ tick 1010 (on_data [1; 2; 3; 4; 5] two_pending) =
       (on_data [1; 2; 3; 4; 5] two_pending, [ng_callback 0 "timeout"],
        Some (TypeError "this._read_buffer.shift is not a function")).
Proof.
  repeat split; try reflexivity.
  cbn. discriminate.
Qed.

(** ** Service check *)

(** C3, on the code.  The card answers the service request with the 12
    bytes [03 <idm> 01 FF FF].  [_request_service] passes its validator to
    [_card_command] as a second argument, which [_card_command] does not
    have, so the reply is accepted: [_request_service] resolves, and
    [read_block] goes on to send the block read [06 <idm> 01 8B 00 01 80 00]
    and resolves with the block. *)
Theorem request_service_accepts_missing_service :
  let reply := [3] ++ idm0 ++ [1; 255; 255] in
  List.length reply = 12%nat
  /\ to_hex (slice_from 10 reply) = "ffff"%string
  /\ fst (_request_service idm0 [139; 0] no_service_world) = Resolved tt
  /\ fst (read_block idm0 [139; 0] 0 1 no_service_world) = Resolved balance_block
  /\ sent_card_commands (snd (read_block idm0 [139; 0] 0 1 no_service_world)) =
       [[2] ++ idm0 ++ [1; 139; 0];
        [6] ++ idm0 ++ [1; 139; 0; 1; 128; 0]].
Proof. vm_compute. repeat split. Qed.

(** ** Reading a service of several blocks *)

Lemma fold_serial_in_order (funcs : list (M bytes)) :
  forall (promise : M (list bytes)) (w : world),
    fold_left
      (fun promise func =>
         then_ promise
           (fun result =>
              then_ (called_in_handler func)
                (fun a => resolve (result ++ [a])) reject)
           reject) funcs promise w =
    match promise w with
    | (Resolved result, w') => in_order funcs result w'
    | (Rejected e, w') => (Rejected e, w')
    | (Pending, w') => (Pending, w')
    | (Thrown x, w') => (Thrown x, w')
    | (Uncaught x, w') => (Uncaught x, w')
    end.
Proof.
  induction funcs as [| func funcs IH]; intros promise w; cbn [fold_left in_order].
  - now destruct (promise w) as [[result | e | | x | x] w'].
  - rewrite IH. unfold then_ at 1.
    destruct (promise w) as [[result | e | | x | x] w']; try reflexivity.
    unfold then_, called_in_handler.
    now destruct (func w') as [[a | e | | x | x] w''].
Qed.

(** [serial] runs its functions in order. *)
Lemma serial_in_order (funcs : list (M bytes)) (w : world) :
  serial funcs w = in_order funcs [] w.
Proof. unfold serial. now rewrite fold_serial_in_order. Qed.

(** C4, on the code.  A card answers every command, each reply after its
    command; the descriptor has 2 blocks.  [read_service] calls
    [read_block(idm, service_code, i, blocks)] for [i = 0] and [i = 1]: the
    block count is passed on as the number of blocks to read from block
    [i].  So the service check is sent twice, not once, the blocks 0, 1,
    1, 2 are read, not 0, 1, and the shaper gets two 32-byte buffers, not
    the two 16-byte blocks. *)
Theorem read_service_two_blocks :
  let r := read_service idm0 two_block_service two_block_world in
  sent_card_commands (snd r) =
    [[2] ++ idm0 ++ [1; 143; 16];
     [6] ++ idm0 ++ [1; 143; 16; 1; 128; 0];
     [6] ++ idm0 ++ [1; 143; 16; 1; 128; 1];
     [2] ++ idm0 ++ [1; 143; 16];
     [6] ++ idm0 ++ [1; 143; 16; 1; 128; 1];
     [6] ++ idm0 ++ [1; 143; 16; 1; 128; 2]]
  /\ sent_card_commands (snd r) <>
    [[2] ++ idm0 ++ [1; 143; 16];
     [6] ++ idm0 ++ [1; 143; 16; 1; 128; 0];
     [6] ++ idm0 ++ [1; 143; 16; 1; 128; 1]]
  /\ fst r = Resolved [block_of 0 ++ block_of 1; block_of 1 ++ block_of 2]
  /\ fst r <> Resolved [block_of 0; block_of 1].
Proof. vm_compute. repeat split; discriminate. Qed.

Lemma read_service_runs_in_order
    {T : Type} (idm : bytes) (sc : jsstring) (N : Z)
    (shaper : list bytes -> T) (w : world) :
  sc <> [] -> 1 <= N ->
  read_service idm
    {| service_code := Some sc; blocks := Some N; processing := Some shaper |} w
  = match in_order (map (fun i => read_block idm sc i N)
                        (map Z.of_nat (seq 0 (Z.to_nat N)))) [] w with
    | (Resolved results, w') => (Resolved (shaper results), w')
    | (Rejected e, w') => (Rejected e, w')
    | (Pending, w') => (Pending, w')
    | (Thrown x, w') => (Thrown x, w')
    | (Uncaught x, w') => (Uncaught x, w')
    end.
Proof.
  intros Hsc HN.
  unfold read_service.
  cbn [service_code blocks processing not_string not_number].
  destruct sc as [| c sc]; [contradiction |].
  replace (N =? 0) with false by (symmetry; apply Z.eqb_neq; lia).
  cbn [orb]. unfold then_ at 1.
  rewrite serial_in_order. unfold range.
  now destruct (in_order _ _ w) as [[results | e | | x | x] w'].
Qed.

Lemma read_block_checks_first
    (idm : bytes) (sc : jsstring) (i N : Z) (v : world) :
  read_block idm sc i N v =
  match _request_service idm sc v with
  | (Resolved _, v1) =>
      match _read_without_encryption2 idm sc i N v1 with
      | (Rejected e, v2) =>
          (Rejected (EWrap "read-without-encryption2-failed" e), v2)
      | other => other
      end
  | (Rejected e, v1) => (Rejected (EWrap "request-service-failed" e), v1)
  | (Pending, v1) => (Pending, v1)
  | (Thrown x, v1) => (Thrown x, v1)
  | (Uncaught x, v1) => (Uncaught x, v1)
  end.
Proof.
  unfold read_block, then_.
  now destruct (_request_service idm sc v) as [[[] | e | | x | x] v1].
Qed.

(** For one block this is one service check, then one read of block 0,
    and the shaper applied to the one block read. *)
Lemma read_service_one_block
    {T : Type} (idm : bytes) (sc : jsstring) (shaper : list bytes -> T)
    (w : world) :
  sc <> [] ->
  read_service idm
    {| service_code := Some sc; blocks := Some 1; processing := Some shaper |} w
  = match read_block idm sc 0 1 w with
    | (Resolved block, w') => (Resolved (shaper [block]), w')
    | (Rejected e, w') => (Rejected e, w')
    | (Pending, w') => (Pending, w')
    | (Thrown x, w') => (Rejected (reason_of x), w')
    | (Uncaught x, w') => (Uncaught x, w')
    end.
Proof.
  intros Hsc.
  rewrite (read_service_runs_in_order idm sc 1 shaper w Hsc ltac:(lia)).
  change (map Z.of_nat (seq 0 (Z.to_nat 1))) with [0].
  cbn [map in_order].
  destruct (read_block idm sc 0 1 w) as [[block | e | | x | x] w'];
    reflexivity.
Qed.

(** ** Extended frame *)

(** For every command longer than 255 bytes, the byte written after the
    two length bytes is the checksum of [FF FF FF LEN_HI LEN_LO]: 3 minus
    the two length bytes, modulo 256. *)
Lemma frame_start_extended (send_buffer : bytes) :
  let len := Z.of_nat (List.length send_buffer) in
  let hi := (len / 256) mod 256 in
  let lo := len mod 256 in
  255 < len ->
  frame_start send_buffer = [0; 0; 255; 255; 255; hi; lo; (3 - hi - lo) mod 256].
Proof.
  intros len hi lo Hlen. unfold frame_start. fold len.
  replace (len <=? 255) with false by (symmetry; apply Z.leb_gt; lia).
  unfold concat_buffer. cbn [map List.concat arg_bytes app].
  rewrite !char_byte.
  change (buffer_from_ascii [0; 0; 255]) with [0; 0; 255].
  change (buffer_from_ascii [255; 255]) with [255; 255].
  rewrite !band_255, !Z.mod_mod by lia.
  rewrite sar8_byte. fold hi.
  assert (Hlo : sar len 0 mod 256 = lo).
  { unfold sar. rewrite Z.shiftr_0_r. apply to_int32_mod.
    exists (2 ^ 24). reflexivity. }
  rewrite Hlo.
  cbn [app slice_from skipn].
  unfold _calculate_checksum. cbn [fold_left].
  rewrite band_255, Z.mod_mod by lia.
  do 7 f_equal.
  replace (- (0 + 255 + 255 + 255 + hi + lo)) with (3 - hi - lo + (-3) * 256)
    by lia.
  now rewrite Z_mod_plus_full.
Qed.

(** C6, on the code.  For a command of 256 bytes the length field is
    [01 00]; the byte written after [00 00 FF FF FF 01 00] is [02], the
    checksum of [FF FF FF 01 00] (the frame start from offset 2), where the
    two's complement of the length field alone is [FF]. *)
Theorem extended_frame_length_checksum :
  frame_start (repeat 0 256) = [0; 0; 255; 255; 255; 1; 0; 2]
  /\ (- (1 + 0)) mod 256 = 255
  /\ _calculate_checksum [255; 255; 255; 1; 0] = 2
  /\ hd [] (written (snd (_rw_command (CmdBuf (repeat 0 256)) CheckNone
                                      (constructor 1000 []))))
     = [0; 0; 255; 255; 255; 1; 0; 2].
Proof. vm_compute. repeat split. Qed.

(** ** Busy flag *)

(** A poll issued while the flag is set rejects with [busy] and changes
    nothing. *)
Lemma polling_while_busy (system_code : jsvalue) (w : world) :
  _busy w = true -> polling system_code w = (Rejected (EStr "busy"), w).
Proof. intros H. unfold polling. now rewrite H. Qed.

(** [polling] clears the flag when it resolves or rejects. *)
Lemma polling_clears_busy (system_code : arg) (w w' : world)
    (o : outcome (option card)) :
  _busy w = false ->
  polling system_code w = (o, w') ->
  match o with
  | Resolved _ | Rejected _ => _busy w' = false
  | _ => True
  end.
Proof.
  intros H. unfold polling. rewrite H.
  unfold then_, update. cbv zeta.
  destruct (_rw_command _ _ _) as [[body | e | | x | x] w1].
  - destruct (starts_with _ _); intros [= <- <-]; reflexivity.
  - intros [= <- <-]; reflexivity.
  - now intros [= <- <-].
  - now intros [= <- <-].
  - now intros [= <- <-].
Qed.
















(** When it resolves, the flag is clear. *)
Lemma read_without_encryption2_resolved_clears_busy
    (idm : bytes) (service_code : jsstring) (block_number length : Z)
    (w w' : world) (b : bytes) :
  _read_without_encryption2 idm service_code block_number length w
  = (Resolved b, w') ->
  _busy w' = false.
Proof.
  unfold _read_without_encryption2.
  unfold then_ at 1. unfold update at 1.
  unfold then_ at 1.
  destruct (serial _ _) as [[r | e' | | x | x] w1]; try discriminate.
  unfold then_, update, resolve. now intros [= _ <-].
Qed.

(** C8, on the code.  The block read fails ([no-ack]); the rejection handler
    of the block task throws before it rejects the task, so
    [_read_without_encryption2] never settles and never reaches the handler
    that clears the flag.  [_busy] stays set and the next poll rejects with
    [busy] without writing. *)
Theorem failed_block_read_keeps_busy :
  let r := _read_without_encryption2 idm0 [139; 0] 0 1 bad_ack_world in
  fst (_read_without_encryption idm0 [139; 0] 0 bad_ack_world) =
    Rejected (EWrap "rw-command-failed"
                (EWrap "ex-command-failed"
                   (EWrap "no-ack" (EStr "check-failed"))))
  /\ fst r = Pending
  /\ _busy (snd r) = true
  /\ polling (AStr SYSTEM_CODE_SUICA) (snd r) = (Rejected (EStr "busy"), snd r).
Proof. vm_compute. repeat split. Qed.

(** ** The timer settles every read it is given enough ticks for *)

Lemma on_data_frame (b : bytes) (w : world) :
  _read_queue (on_data b w) = _read_queue w /\ clock (on_data b w) = clock w.
Proof. unfold on_data. now destruct (_read_buffer w). Qed.

Lemma deliver_frame (w : world) :
  _read_queue (deliver w) = _read_queue w /\ clock (deliver w) = clock w.
Proof.
  assert (F : forall (l : list (Z * bytes)) (v : world),
             _read_queue (fold_left (fun w c => on_data (snd c) w) l v)
             = _read_queue v
             /\ clock (fold_left (fun w c => on_data (snd c) w) l v) = clock v).
  { induction l as [| c l IH]; intros v; cbn [fold_left].
    - now split.
    - destruct (IH (on_data (snd c) v)) as [-> ->]. apply on_data_frame. }
  unfold deliver. cbv zeta.
  match goal with |- context [fold_left _ ?l ?v] => destruct (F l v) as [-> ->] end.
  now split.
Qed.

(** What one run of the timer callback does to a non-empty queue whose head
    has not expired: it keeps the clock, and either keeps the head (same
    deadline, same promise) and calls nothing, or removes the head and
    settles its promise. *)
Lemma tick_live_head (now : Z) (w : world) (r : read_req) (rest : list read_req) :
  _read_queue w = r :: rest -> now < time_expire r ->
  exists w2 cs,
    tick now w = (w2, cs, None) /\ clock w2 = clock w /\
    ((exists r', _read_queue w2 = r' :: rest
                 /\ time_expire r' = time_expire r
                 /\ promise r' = promise r /\ cs = [])
     \/ (_read_queue w2 = rest /\ exists o, settled (promise r) cs = Some o
                                            /\ o <> Pending)).
Proof.
  intros Hq Hnow. unfold tick. rewrite Hq.
  replace (now >=? time_expire r) with false
    by (symmetry; rewrite Z.geb_leb; apply Z.leb_gt; lia).
  destruct (_read_buffer w) as [rb |].
  - cbv zeta.
    match goal with |- context [(?n =? 0)%nat] => destruct (n =? 0)%nat end.
    + eexists _, _. split; [reflexivity |]. split; [reflexivity |].
      right. split; [reflexivity |].
      match goal with |- context [if ?c then _ else _] => destruct c end;
        cbn [app settled with_read promise]; rewrite Nat.eqb_refl;
        eexists; (split; [reflexivity | discriminate]).
    + eexists _, _. split; [reflexivity |]. split; [reflexivity |].
      left. eexists. repeat split.
  - exists w, []. split; [reflexivity |]. split; [reflexivity |].
    left. exists r. now rewrite Hq.
Qed.

Lemma settled_not_pending (p : nat) (cs : list callback) (o : outcome bytes) :
  settled p cs = Some o -> o <> Pending.
Proof.
  induction cs as [| [q b | q s] cs IH]; cbn [settled]; [discriminate | |];
    destruct (q =? p)%nat; auto; intros [= <-]; discriminate.
Qed.

(** A promise that sits in the queue is settled, or the callback throws,
    before the ticks run out, provided they reach every deadline in the
    queue. *)
Lemma await_never_starves (fuel : nat) :
  forall (p : nat) (w : world),
    (1 <= fuel)%nat ->
    In p (map promise (_read_queue w)) ->
    (forall r, In r (_read_queue w) ->
               time_expire r <= clock w + 10 * Z.of_nat fuel) ->
    fst (await fuel p w) <> Pending.
Proof.
  induction fuel as [| fuel IH]; intros p w Hfuel Hin Hdead; [lia |].
  cbn [await].
  set (w1 := deliver _).
  destruct (deliver_frame (set_env (clock w + 10) (inbound w) w)) as [Hq1 Hc1].
  fold w1 in Hq1, Hc1. cbn [set_env _read_queue clock] in Hq1, Hc1.
  destruct (_read_queue w) as [| r rest] eqn:Hq; [contradiction |].
  destruct (Z_lt_le_dec (clock w1) (time_expire r)) as [Hlive | Hexp].
  - destruct (tick_live_head (clock w1) w1 r rest Hq1 Hlive)
      as (w2 & cs & -> & Hc2 & Hcases).
    assert (Hf : (1 <= fuel)%nat).
    { specialize (Hdead r (or_introl eq_refl)). lia. }
    destruct Hcases as [(r' & Hq2 & He & Hp & ->) | (Hq2 & o & Hs & Ho)].
    + cbn [settled]. apply IH; [exact Hf | |].
      * rewrite Hq2. cbn [map In] in *. now rewrite Hp.
      * intros x Hx. rewrite Hq2 in Hx.
        assert (Hx' : time_expire x <= clock w + 10 * Z.of_nat (S fuel)).
        { destruct Hx as [<- | Hx].
          - rewrite He. apply Hdead. now left.
          - apply Hdead. now right. }
        lia.
    + destruct (settled p cs) as [o' |] eqn:Hsp.
      * cbn [fst]. eapply settled_not_pending; eassumption.
      * apply IH; [exact Hf | |].
        -- rewrite Hq2. cbn [map In] in Hin. destruct Hin as [Hp | Hin].
           ++ rewrite Hp in Hs. congruence.
           ++ exact Hin.
        -- intros x Hx. rewrite Hq2 in Hx.
           specialize (Hdead x (or_intror Hx)). lia.
  - rewrite (tick_expired_head (clock w1) w1 r rest Hq1 Hexp).
    cbn [fst]. discriminate.
Qed.

Lemma fold_max_bounds (l : list Z) (a : Z) :
  a <= fold_left Z.max l a /\ forall x, In x l -> x <= fold_left Z.max l a.
Proof.
  revert a. induction l as [| y l IH]; intros a; cbn [fold_left].
  - split; [lia | contradiction].
  - destruct (IH (Z.max a y)) as [H1 H2]. split; [lia |].
    intros x [<- | Hx]; [lia | now apply H2].
Qed.

(** [_read] never ends for lack of ticks: its promise is resolved or
    rejected, or the timer callback throws. *)
Theorem read_never_starves (length : nat) (c : checker) (t : option Z) (w : world) :
  fst (_read length c t w) <> Pending.
Proof.
  unfold _read.
  match goal with |- fst (await (ticks_to_deadline ?v) _ _) <> _ => set (w' := v) end.
  apply await_never_starves.
  - unfold ticks_to_deadline. lia.
  - unfold w'. cbn [_read_queue]. rewrite map_app, in_app_iff. right. now left.
  - intros r Hr. unfold ticks_to_deadline.
    set (last := fold_left Z.max _ _).
    assert (Hl : time_expire r <= last /\ clock w' <= last).
    { destruct (fold_max_bounds (map time_expire (_read_queue w')) (clock w'))
        as [H1 H2].
      split; [apply H2; now apply in_map | exact H1]. }
    rewrite Nat2Z.inj_succ, Z2Nat.id.
    + pose proof (Z.mul_div_le (last - clock w') 10 ltac:(lia)).
      pose proof (Z.mod_pos_bound (last - clock w') 10 ltac:(lia)).
      pose proof (Z.div_mod (last - clock w') 10 ltac:(lia)). lia.
    + assert (0 <= (last - clock w') / 10) by (apply Z.div_pos; lia). lia.
Qed.

(** * Further properties of the driver *)

(** ** Checksums and frames *)

Lemma fold_add_app (a b : bytes) (z : Z) :
  fold_left Z.add (a ++ b) z = fold_left Z.add a z + fold_left Z.add b 0.
Proof.
  rewrite fold_left_app.
  generalize (fold_left Z.add a z). clear a z.
  induction b as [| y b IH]; intros z; cbn [fold_left].
  - lia.
  - rewrite IH, (IH (0 + y)). lia.
Qed.

Lemma checksum_mod (b : bytes) :
  _calculate_checksum b = (- fold_left Z.add b 0) mod 256.
Proof. unfold _calculate_checksum. apply band_255. Qed.

Lemma checksum_closed (b : bytes) :
  _calculate_checksum (b ++ [_calculate_checksum b]) = 0.
Proof.
  rewrite (checksum_mod (b ++ _)), fold_add_app, (checksum_mod b).
  cbn [fold_left]. rewrite Z.add_0_l.
  set (s := fold_left Z.add b 0).
  pose proof (Z.div_mod (- s) 256 ltac:(lia)) as D.
  replace (- (s + (- s) mod 256)) with (0 + (- s / 256) * 256) by lia.
  now rewrite Z_mod_plus_full.
Qed.

(** X1. The checksum of a buffer is the only byte that, appended to the
    buffer, makes the checksum of the whole zero: this is the test the
    engine applies to a received header and the reason a frame that carries
    its own checksum passes it. *)
Theorem checksum_byte_closes_buffer (b : bytes) (c : Z) :
  is_byte c ->
  (_calculate_checksum (b ++ [c]) = 0 <-> c = _calculate_checksum b).
Proof.
  intros Hc. split.
  - rewrite (checksum_mod (b ++ _)), fold_add_app, (checksum_mod b).
    cbn [fold_left]. rewrite Z.add_0_l.
    set (s := fold_left Z.add b 0). intros H.
    pose proof (Z.div_mod (- (s + c)) 256 ltac:(lia)) as D. rewrite H in D.
    replace (- s) with (c + (- (s + c) / 256) * 256) by lia.
    rewrite Z_mod_plus_full. symmetry. apply Z.mod_small. exact Hc.
  - intros ->. apply checksum_closed.
Qed.

Lemma checksum_byte_closes_buffer_witness :
  _calculate_checksum ([212; 50; 2; 0; 0; 0] ++ [248]) = 0
  <-> 248 = _calculate_checksum [212; 50; 2; 0; 0; 0].
Proof.
  apply (checksum_byte_closes_buffer [212; 50; 2; 0; 0; 0] 248).
  unfold is_byte. lia.
Defined.

Lemma frame_start_normal (send_buffer : bytes) :
  let len := Z.of_nat (List.length send_buffer) in
  len <= 255 ->
  frame_start send_buffer = [0; 0; 255; len; (- len) mod 256].
Proof.
  intros len Hlen. unfold frame_start. fold len.
  replace (len <=? 255) with true by (symmetry; apply Z.leb_le; lia).
  unfold concat_buffer. cbn [map List.concat arg_bytes app].
  rewrite !char_byte, band_255, Z.mod_mod by lia.
  change (buffer_from_ascii [0; 0; 255]) with [0; 0; 255].
  rewrite (Z.mod_small len) by lia. reflexivity.
Qed.

(** X2. For a command of at most 255 bytes the engine opens the frame with
    [00 00 FF LEN LCS], [LEN] the command length and [LCS] its two's
    complement; this header is one the engine itself accepts on receipt: it
    starts with [00 00 FF], is not the extended marker, and its bytes from
    offset 3 have checksum zero. *)
Theorem normal_frame_header_is_accepted (send_buffer : bytes) :
  (List.length send_buffer <= 255)%nat ->
  let len := Z.of_nat (List.length send_buffer) in
  let header := frame_start send_buffer in
  header = [0; 0; 255; len; (- len) mod 256]
  /\ starts_with "0000ff" (to_hex header) = true
  /\ is_ (at_ header 3) 255 && is_ (at_ header 4) 255 = false
  /\ _calculate_checksum (slice_from 3 header) = 0
  /\ nth 3 header 0 = len.
Proof.
  intros Hlen len header.
  assert (E : header = [0; 0; 255; len; (- len) mod 256])
    by (apply frame_start_normal; lia).
  rewrite E. repeat split.
  - cbn [at_ nth_error is_].
    destruct (Z.eqb_spec len 255) as [-> | _]; reflexivity.
  - cbn [slice_from skipn]. rewrite checksum_mod. cbn [fold_left].
    rewrite Z.add_0_l.
    pose proof (Z.div_mod (- len) 256 ltac:(lia)) as D.
    replace (- (len + (- len) mod 256)) with (0 + (- len / 256) * 256) by lia.
    now rewrite Z_mod_plus_full.
Qed.

Lemma normal_frame_header_is_accepted_witness :
  frame_start [212; 50; 2; 0; 0; 0] = [0; 0; 255; 6; (- 6) mod 256]
  /\ starts_with "0000ff" (to_hex (frame_start [212; 50; 2; 0; 0; 0])) = true
  /\ is_ (at_ (frame_start [212; 50; 2; 0; 0; 0]) 3) 255
     && is_ (at_ (frame_start [212; 50; 2; 0; 0; 0]) 4) 255 = false
  /\ _calculate_checksum (slice_from 3 (frame_start [212; 50; 2; 0; 0; 0])) = 0
  /\ nth 3 (frame_start [212; 50; 2; 0; 0; 0]) 0 = 6.
Proof.
  apply (normal_frame_header_is_accepted [212; 50; 2; 0; 0; 0]).
  cbn. lia.
Defined.

(** X3. A command longer than 255 bytes gets the extended frame start: 8
    bytes, [00 00 FF FF FF] followed by the length modulo 65536 as two
    bytes, high byte first. *)
Theorem long_command_gets_extended_frame (send_buffer : bytes) :
  (255 < List.length send_buffer)%nat ->
  let len := Z.of_nat (List.length send_buffer) in
  List.length (frame_start send_buffer) = 8%nat
  /\ firstn 7 (frame_start send_buffer)
     = [0; 0; 255; 255; 255; (len / 256) mod 256; len mod 256].
Proof.
  intros Hlen len.
  rewrite frame_start_extended by lia.
  now split.
Qed.

Lemma long_command_gets_extended_frame_witness :
  List.length (frame_start (repeat 7 300)) = 8%nat
  /\ firstn 7 (frame_start (repeat 7 300))
     = [0; 0; 255; 255; 255;
        (Z.of_nat (List.length (repeat 7 300)) / 256) mod 256;
        Z.of_nat (List.length (repeat 7 300)) mod 256].
Proof.
  apply (long_command_gets_extended_frame (repeat 7 300)).
  rewrite repeat_length. lia.
Defined.

(** ** Numbers in buffers *)

Lemma shl8_small (x : Z) : 0 <= x < 2 ^ 23 -> shl x 8 = x * 256.
Proof.
  intros H. unfold shl.
  rewrite (to_int32_small x) by lia.
  rewrite Z.shiftl_mul_pow2 by lia. change (2 ^ 8) with 256.
  apply to_int32_small. lia.
Qed.

Lemma nth_error_middle (pre post : bytes) (x : Z) :
  nth_error (pre ++ x :: post) (List.length pre) = Some x.
Proof.
  rewrite nth_error_app2 by lia. now rewrite Nat.sub_diag.
Qed.

Lemma read_number_le2 (n : Z) (pre post : bytes) :
  0 <= n < 65536 ->
  read_number (pre ++ le2 n ++ post) (List.length pre) 2 LE = Some n.
Proof.
  intros Hn. unfold le2, read_number.
  cbn [Nat.eqb app].
  replace (List.length pre + 2 - List.length pre)%nat with 2%nat by lia.
  cbn [seq map rev app at_].
  rewrite nth_error_middle.
  replace (S (List.length pre)) with (List.length (pre ++ [n mod 256]))
    by (rewrite length_app; cbn; lia).
  replace (pre ++ n mod 256 :: (n / 256) mod 256 :: post)
    with ((pre ++ [n mod 256]) ++ (n / 256) mod 256 :: post)
    by (now rewrite <- app_assoc).
  rewrite nth_error_middle.
  cbn [fold_left nth read_number_step].
  pose proof (Z.mod_pos_bound (n / 256) 256 ltac:(lia)).
  change (shl 0 8) with 0. rewrite Z.add_0_l, shl8_small by lia.
  f_equal.
  assert (n / 256 < 256) by (apply Z.div_lt_upper_bound; lia).
  assert (0 <= n / 256) by (apply Z.div_pos; lia).
  rewrite (Z.mod_small (n / 256)) by lia.
  pose proof (Z.div_mod n 256 ltac:(lia)). lia.
Qed.

(** X4. Round trip of the two number helpers: a number below 65536 written
    with [int2strbinLE(n, 2)] anywhere into a buffer is read back by
    [read_number(buffer, idx, 2, 'LE')] at that place. *)
Theorem read_number_inverts_int2strbinLE (n : Z) (pre post : bytes) :
  0 <= n < 65536 ->
  read_number (pre ++ buffer_from_ascii (int2strbinLE n 2) ++ post)
              (List.length pre) 2 LE = Some n.
Proof.
  intros Hn. rewrite int2strbinLE_2. now apply read_number_le2.
Qed.

Lemma read_number_inverts_int2strbinLE_witness :
  read_number ([1; 2; 3] ++ buffer_from_ascii (int2strbinLE 1000 2) ++ [9])
              (List.length [1; 2; 3]) 2 LE = Some 1000.
Proof.
  apply (read_number_inverts_int2strbinLE 1000 [1; 2; 3] [9]). lia.
Defined.

Lemma read_number_step_nan (out x : option Z) :
  read_number_step out x = None <-> x = None.
Proof. unfold read_number_step. destruct x; split; congruence. Qed.

(** [read_number] is [NaN] exactly when the last element it adds is
    missing. *)
Lemma read_number_nan_last (buffer : bytes) (idx m : nat) (order : byte_order) :
  let extracted := map (fun i => at_ buffer i) (seq idx (S m)) in
  read_number buffer idx (S m) order = None <->
  nth m (match order with LE => rev extracted | BE => extracted end) None = None.
Proof.
  intros extracted. unfold read_number. cbn [Nat.eqb].
  replace (idx + S m - idx)%nat with (S m) by lia. fold extracted.
  rewrite seq_S, fold_left_app. cbn [fold_left Nat.add].
  apply read_number_step_nan.
Qed.

(** X5. Reading past the end of the buffer, for a length of at least 1.
    In little-endian order the result is [NaN] exactly when [buffer[idx]]
    itself is missing, so a read that starts inside the buffer and runs
    past its end still returns a number; in big-endian order the result is
    [NaN] exactly when the last byte, [buffer[idx + len - 1]], is
    missing. *)
Theorem read_number_nan_iff (buffer : bytes) (idx len : nat) :
  (1 <= len)%nat ->
  (read_number buffer idx len LE = None <-> (List.length buffer <= idx)%nat)
  /\ (read_number buffer idx len BE = None
      <-> (List.length buffer <= idx + len - 1)%nat).
Proof.
  intros Hlen. destruct len as [| m]; [lia |].
  split.
  - rewrite read_number_nan_last.
    rewrite rev_nth by (rewrite length_map, length_seq; lia).
    rewrite length_map, length_seq, Nat.sub_diag.
    cbn [seq map nth]. apply nth_error_None.
  - rewrite read_number_nan_last.
    rewrite (nth_indep _ None (at_ buffer 0))
      by (rewrite length_map, length_seq; lia).
    rewrite (map_nth (fun i => at_ buffer i)), seq_nth by lia.
    replace (idx + S m - 1)%nat with (idx + m)%nat by lia.
    apply nth_error_None.
Qed.

Lemma read_number_nan_iff_witness :
  (read_number [232] 0 2 LE = None <-> (List.length [232] <= 0)%nat)
  /\ (read_number [232] 0 2 BE = None
      <-> (List.length [232] <= 0 + 2 - 1)%nat).
Proof.
  apply (read_number_nan_iff [232] 0 2). lia.
Defined.

Lemma to_int32_high (x : Z) : 2 ^ 31 <= x < 2 ^ 32 -> to_int32 x = x - 2 ^ 32.
Proof.
  intros H. unfold to_int32.
  replace (x + 2 ^ 31) with (x - 2 ^ 31 + 1 * 2 ^ 32) by lia.
  rewrite Z_mod_plus_full, Z.mod_small; lia.
Qed.

(** X6. Four bytes read in little-endian order give the 32-bit signed value
    of the number they spell: the number itself below 2^31, and a negative
    number, 2^32 less, when the top byte is 0x80 or more. *)
Theorem read_number_four_bytes_is_signed (b0 b1 b2 b3 : Z) :
  is_byte b0 -> is_byte b1 -> is_byte b2 -> is_byte b3 ->
  read_number [b0; b1; b2; b3] 0 4 LE
  = Some (to_int32 (b0 + 256 * b1 + 65536 * b2 + 16777216 * b3)).
Proof.
  unfold is_byte. intros H0 H1 H2 H3.
  unfold read_number.
  cbn [Nat.eqb Nat.add Nat.sub seq map rev app at_ nth_error fold_left nth
       read_number_step].
  change (shl 0 8) with 0. rewrite Z.add_0_l.
  rewrite (shl8_small b3) by lia.
  rewrite (shl8_small (b3 * 256 + b2)) by lia.
  f_equal.
  set (x := (b3 * 256 + b2) * 256 + b1).
  assert (Hx : 0 <= x < 2 ^ 24) by (unfold x; lia).
  unfold shl. rewrite (to_int32_small x) by lia.
  rewrite Z.shiftl_mul_pow2 by lia. change (2 ^ 8) with 256.
  replace (b0 + 256 * b1 + 65536 * b2 + 16777216 * b3) with (x * 256 + b0)
    by (unfold x; lia).
  destruct (Z_lt_le_dec x (2 ^ 23)).
  - rewrite !to_int32_small by lia. reflexivity.
  - rewrite !to_int32_high by lia. lia.
Qed.

Lemma read_number_four_bytes_is_signed_witness :
  read_number [0; 0; 0; 128] 0 4 LE
  = Some (to_int32 (0 + 256 * 0 + 65536 * 0 + 16777216 * 128)).
Proof.
  apply (read_number_four_bytes_is_signed 0 0 0 128); unfold is_byte; lia.
Defined.

(** ** The timer callback *)

Lemma concat_snoc (l : list bytes) (x : bytes) :
  List.concat (l ++ [x]) = List.concat l ++ x.
Proof. rewrite concat_app. cbn [List.concat]. now rewrite app_nil_r. Qed.

(** The run of the timer callback on a head request that has not expired,
    with a buffer to take from: enough bytes complete the request, fewer are
    all taken. *)
Lemma tick_live_cases (now : Z) (w : world) (r : read_req)
    (rest : list read_req) (rb : bytes) :
  _read_queue w = r :: rest -> now < time_expire r ->
  _read_buffer w = Some rb ->
  tick now w =
  if (bytes_needed r <=? List.length rb)%nat then
    let out := List.concat (buffers r) ++ firstn (bytes_needed r) rb in
    (set_reads (Some (skipn (bytes_needed r) rb)) rest w,
     (if check_passes (check r) out then []
      else [ng_callback (promise r) "check-failed"])
     ++ [ok_callback (promise r) out], None)
  else
    (set_reads (Some [])
       (with_read r (bytes_needed r - List.length rb) (buffers r ++ [rb])
        :: rest) w, [], None).
Proof.
  intros Hq Hnow Hb. unfold tick. rewrite Hq, Hb.
  replace (now >=? time_expire r) with false
    by (symmetry; rewrite Z.geb_leb; apply Z.leb_gt; lia).
  cbv zeta.
  destruct (Nat.leb_spec (bytes_needed r) (List.length rb)) as [Hle | Hgt].
  - cbn [bytes_needed with_read buffers check promise].
    rewrite Nat.sub_diag. cbn [Nat.eqb].
    now rewrite concat_snoc.
  - cbn [bytes_needed with_read buffers check promise].
    replace (bytes_needed r - List.length rb =? 0)%nat with false
      by (symmetry; apply Nat.eqb_neq; lia).
    now rewrite firstn_all, skipn_all.
Qed.

(** X7. The timer moves bytes from the front of the receive buffer to the
    head request and to nothing else.  For a head that has not expired:
    the requests behind it are untouched; what the head has gathered
    followed by what is left in the buffer is the same byte sequence before
    and after; a head that still lacks bytes stays, short of exactly what it
    was given; a head that is complete leaves the queue and its success
    callback gets precisely the number of bytes it asked for in all. *)
Theorem tick_hands_front_bytes_to_head (now : Z) (w : world) (r : read_req)
    (rest : list read_req) (rb : bytes) :
  _read_queue w = r :: rest -> now < time_expire r ->
  _read_buffer w = Some rb ->
  exists w2 cs rb',
    tick now w = (w2, cs, None) /\ _read_buffer w2 = Some rb' /\
    ((exists r',
         _read_queue w2 = r' :: rest /\ cs = []
         /\ List.concat (buffers r') ++ rb' = List.concat (buffers r) ++ rb
         /\ (bytes_needed r' + List.length (List.concat (buffers r'))
             = bytes_needed r + List.length (List.concat (buffers r)))%nat
         /\ (0 < bytes_needed r')%nat)
     \/ (exists out,
           _read_queue w2 = rest /\ In (ok_callback (promise r) out) cs
           /\ out ++ rb' = List.concat (buffers r) ++ rb
           /\ (List.length out
               = bytes_needed r + List.length (List.concat (buffers r)))%nat)).
Proof.
  intros Hq Hnow Hb.
  rewrite (tick_live_cases now w r rest rb Hq Hnow Hb).
  destruct (Nat.leb_spec (bytes_needed r) (List.length rb)) as [Hle | Hgt].
  - cbv zeta. eexists _, _, _. split; [reflexivity |].
    split; [reflexivity |]. right. eexists.
    split; [reflexivity |]. split; [apply in_or_app; right; now left |].
    split.
    + now rewrite <- app_assoc, firstn_skipn.
    + rewrite length_app, firstn_length_le by exact Hle. lia.
  - eexists _, _, _. split; [reflexivity |].
    split; [reflexivity |]. left. eexists.
    split; [reflexivity |]. split; [reflexivity |].
    cbn [with_read buffers bytes_needed].
    rewrite concat_snoc, length_app. repeat split; try lia.
    now rewrite app_nil_r.
Qed.

Lemma tick_hands_front_bytes_to_head_witness :
  exists w2 cs rb',
    tick 1010 (on_data [0; 0; 255; 0] (set_reads None [request_b] two_pending))
    = (w2, cs, None) /\ _read_buffer w2 = Some rb' /\
    ((exists r',
         _read_queue w2 = r' :: [] /\ cs = []
         /\ List.concat (buffers r') ++ rb'
            = List.concat (buffers request_b) ++ [0; 0; 255; 0]
         /\ (bytes_needed r' + List.length (List.concat (buffers r'))
             = bytes_needed request_b
               + List.length (List.concat (buffers request_b)))%nat
         /\ (0 < bytes_needed r')%nat)
     \/ (exists out,
           _read_queue w2 = [] /\ In (ok_callback (promise request_b) out) cs
           /\ out ++ rb' = List.concat (buffers request_b) ++ [0; 0; 255; 0]
           /\ (List.length out
               = bytes_needed request_b
                 + List.length (List.concat (buffers request_b)))%nat)).
Proof.
  apply (tick_hands_front_bytes_to_head 1010
           (on_data [0; 0; 255; 0] (set_reads None [request_b] two_pending))
           request_b [] [0; 0; 255; 0]).
  - reflexivity.
  - cbn. lia.
  - reflexivity.
Defined.

(** ** Reads *)

Lemma fold_on_data (l : list (Z * bytes)) :
  forall v : world,
    let v' := fold_left (fun w c => on_data (snd c) w) l v in
    _read_buffer v' = fold_left append_chunk l (_read_buffer v)
    /\ _read_queue v' = _read_queue v /\ next_promise v' = next_promise v
    /\ clock v' = clock v /\ inbound v' = inbound v /\ untouched v v'.
Proof.
  induction l as [| c l IH]; intros v; cbn [fold_left].
  - unfold untouched. tauto.
  - destruct (IH (on_data (snd c) v)) as (-> & -> & -> & -> & -> & U).
    unfold untouched in *. destruct U as (-> & -> & -> & ->).
    unfold on_data, append_chunk. destruct (_read_buffer v); cbn; tauto.
Qed.

Lemma at_next_tick_facts (w : world) :
  let w1 := at_next_tick w in
  _read_buffer w1
  = fold_left append_chunk
      (filter (fun c => fst c <=? clock w + 10) (inbound w)) (_read_buffer w)
  /\ _read_queue w1 = _read_queue w /\ next_promise w1 = next_promise w
  /\ clock w1 = clock w + 10 /\ untouched w w1.
Proof.
  unfold at_next_tick, deliver. cbv zeta.
  match goal with |- context [fold_left _ ?l ?v] =>
    destruct (fold_on_data l v) as (-> & -> & -> & -> & _ & U) end.
  cbn [set_env clock inbound _read_buffer _read_queue next_promise].
  unfold untouched in *. cbn [set_env _timeout _busy written flushed] in U.
  tauto.
Qed.

Lemma fold_append_chunk_some (l : list (Z * bytes)) (x : bytes) :
  exists more, fold_left append_chunk l (Some x) = Some (x ++ more).
Proof.
  revert x. induction l as [| c l IH]; intros x; cbn [fold_left].
  - exists []. now rewrite app_nil_r.
  - change (append_chunk (Some x) c) with (Some (x ++ snd c)).
    destruct (IH (x ++ snd c)) as [more H].
    exists (snd c ++ more). rewrite app_assoc. exact H.
Qed.

(** What is in the buffer is still at its front at the next tick. *)
Lemma buffered_received (w : world) (b : bytes) :
  (exists tail, _read_buffer w = Some (b ++ tail)) -> received_by_next_tick w b.
Proof.
  intros [tail H]. unfold received_by_next_tick.
  destruct (at_next_tick_facts w) as (E & _). rewrite H in E.
  destruct (fold_append_chunk_some
              (filter (fun c => fst c <=? clock w + 10) (inbound w))
              (b ++ tail)) as [more Hm].
  exists (tail ++ more). rewrite E, app_assoc. exact Hm.
Qed.

(** Whether bytes are received by the next tick depends on the clock, on
    what is on its way and on the buffer only. *)
Lemma received_same (w v : world) (b : bytes) :
  clock v = clock w -> inbound v = inbound w ->
  _read_buffer v = _read_buffer w ->
  received_by_next_tick w b -> received_by_next_tick v b.
Proof.
  unfold received_by_next_tick. intros Hc Hi Hb [tail H]. exists tail.
  destruct (at_next_tick_facts v) as (Ev & _).
  destruct (at_next_tick_facts w) as (Ew & _).
  rewrite Ev, Hc, Hi, Hb, <- Ew. exact H.
Qed.

(** A read whose bytes are received by the next tick is settled at that
    tick: it takes exactly its bytes from the front, resolves with them
    when they pass its check and rejects with [check-failed] otherwise,
    and leaves what follows at the front of the buffer. *)
Lemma read_step (n : nat) (c : checker) (w : world) (b rest : bytes) :
  _read_queue w = [] -> 10 < _timeout w ->
  received_by_next_tick w (b ++ rest) -> List.length b = n ->
  exists w',
    _read n c None w
    = (if check_passes c b then Resolved b else Rejected (EStr "check-failed"),
       w')
    /\ idle_with w' rest /\ untouched w w'.
Proof.
  intros Hq Ht [tail Hrecv] Hn. unfold _read.
  match goal with |- context [await _ _ ?v] => set (w0 := v) end.
  assert (Hrecv0 : received_by_next_tick w0 (b ++ rest)).
  { apply (received_same w); try reflexivity. now exists tail. }
  destruct Hrecv0 as [tail0 Hb1].
  destruct (at_next_tick_facts w0) as (_ & Hq1 & _ & Hc1 & U1).
  unfold ticks_to_deadline. cbn [await].
  fold (at_next_tick w0). set (w1 := at_next_tick w0) in *.
  cbn [w0 _read_queue clock] in Hq1, Hc1. rewrite Hq in Hq1. cbn [app] in Hq1.
  rewrite Hc1.
  match type of Hq1 with _ = [?r] => set (req := r) in * end.
  rewrite (tick_live_cases (clock w + 10) w1 req [] _ Hq1
             ltac:(cbn; lia) Hb1).
  replace (bytes_needed req <=? List.length ((b ++ rest) ++ tail0))%nat
    with true
    by (symmetry; apply Nat.leb_le; cbn; rewrite !length_app; lia).
  cbv zeta. cbn [req buffers bytes_needed check promise List.concat app].
  rewrite <- app_assoc, <- Hn, firstn_app, Nat.sub_diag, firstn_all.
  cbn [firstn]. rewrite app_nil_r.
  rewrite skipn_app, skipn_all, Nat.sub_diag. cbn [skipn app].
  unfold untouched in *. cbn [w0 _timeout _busy written flushed] in U1.
  destruct (check_passes c b); cbn [app settled]; rewrite Nat.eqb_refl;
    eexists; (split; [reflexivity |]);
    (split; [split; [reflexivity | now exists tail0] | exact U1]).
Qed.

Lemma tick_live_no_buffer (now : Z) (w : world) (r : read_req)
    (rest : list read_req) :
  _read_queue w = r :: rest -> now < time_expire r -> _read_buffer w = None ->
  tick now w = (w, [], None).
Proof.
  intros Hq Hnow Hb. unfold tick. rewrite Hq, Hb.
  now replace (now >=? time_expire r) with false
    by (symmetry; rewrite Z.geb_leb; apply Z.leb_gt; lia).
Qed.

(** While the only pending read is awaited, however many ticks it takes and
    in however many pieces its bytes arrive, what it resolves with is as
    long as what it still needed plus what it had, and passes its check. *)
Lemma await_resolved (fuel : nat) :
  forall (w w' : world) (r : read_req) (b : bytes),
    _read_queue w = [r] ->
    await fuel (promise r) w = (Resolved b, w') ->
    (List.length b
     = bytes_needed r + List.length (List.concat (buffers r)))%nat
    /\ check_passes (check r) b = true /\ _read_queue w' = [].
Proof.
  induction fuel as [| fuel IH]; intros w w' r b Hq; cbn [await];
    [discriminate |].
  fold (at_next_tick w). set (w1 := at_next_tick w).
  destruct (at_next_tick_facts w) as (_ & Hq1 & _). fold w1 in Hq1.
  rewrite Hq in Hq1.
  destruct (Z_lt_le_dec (clock w1) (time_expire r)) as [Hlive | Hexp].
  - destruct (_read_buffer w1) as [rb |] eqn:Hb.
    + rewrite (tick_live_cases _ w1 r [] rb Hq1 Hlive Hb).
      destruct (Nat.leb_spec (bytes_needed r) (List.length rb)) as [Hle | Hgt].
      * cbv zeta.
        destruct (check_passes (check r) _) eqn:Hc;
          cbn [app settled]; rewrite Nat.eqb_refl; intros [= <- <-].
        repeat split; [| exact Hc].
        rewrite length_app, firstn_length_le by exact Hle. lia.
      * cbn [settled]. intros H.
        apply (IH _ _ (with_read r (bytes_needed r - List.length rb)
                                 (buffers r ++ [rb]))) in H;
          [| reflexivity].
        cbn [with_read bytes_needed buffers check] in H.
        rewrite concat_snoc, length_app in H.
        destruct H as (H1 & H2 & H3). repeat split; [lia | exact H2 | exact H3].
    + rewrite (tick_live_no_buffer _ w1 r [] Hq1 Hlive Hb).
      cbn [settled]. now apply IH.
  - rewrite (tick_expired_head _ w1 r [] Hq1 Hexp). discriminate.
Qed.

(** X8. A read issued while no other read is pending, when it resolves,
    resolves with exactly the number of bytes asked for, and these bytes
    pass its check; the queue is empty again.  This holds however the bytes
    arrive, in one piece or spread over many ticks. *)
Theorem read_resolves_with_checked_bytes (n : nat) (c : checker)
    (t : option Z) (w w' : world) (b : bytes) :
  _read_queue w = [] ->
  _read n c t w = (Resolved b, w') ->
  List.length b = n /\ check_passes c b = true /\ _read_queue w' = [].
Proof.
  intros Hq. unfold _read. rewrite Hq. cbn [app].
  match goal with |- await ?f _ ?v = _ -> _ =>
    match v with context [[?r]] =>
      intros H; pose proof (await_resolved f v w' r b eq_refl H) as R
    end
  end.
  cbn [bytes_needed buffers check List.concat List.length] in R.
  rewrite Nat.add_0_r in R. exact R.
Qed.

Lemma read_resolves_with_checked_bytes_witness :
  List.length ACK = 6%nat
  /\ check_passes (CheckHex "0000ff00ff00") ACK = true
  /\ _read_queue
       (snd (_read 6 (CheckHex "0000ff00ff00") None
                   (constructor 1000 [(10, [0; 0; 255]); (30, [0; 255; 0])])))
     = [].
Proof.
  apply (read_resolves_with_checked_bytes 6 (CheckHex "0000ff00ff00") None
           (constructor 1000 [(10, [0; 0; 255]); (30, [0; 255; 0])])
           (snd (_read 6 (CheckHex "0000ff00ff00") None
                   (constructor 1000 [(10, [0; 0; 255]); (30, [0; 255; 0])])))
           ACK).
  - reflexivity.
  - vm_compute. reflexivity.
Defined.

(** ** A transaction that is answered *)

Lemma then_resolved {A B} (p : M A) (f : A -> M B) (g : error -> M B)
    (w w' : world) (a : A) :
  p w = (Resolved a, w') -> then_ p f g w = f a w'.
Proof. intros H. unfold then_. now rewrite H. Qed.

Lemma then_rejected {A B} (p : M A) (f : A -> M B) (g : error -> M B)
    (w w' : world) (e : error) :
  p w = (Rejected e, w') -> then_ p f g w = g e w'.
Proof. intros H. unfold then_. now rewrite H. Qed.

Lemma untouched_trans (w1 w2 w3 : world) :
  untouched w1 w2 -> untouched w2 w3 -> untouched w1 w3.
Proof. unfold untouched. intuition congruence. Qed.

Lemma idle_received (w : world) (b : bytes) :
  idle_with w b -> received_by_next_tick w b.
Proof. intros [_ H]. now apply buffered_received. Qed.

Lemma header_not_extended (len : Z) :
  is_ (at_ [0; 0; 255; len; (- len) mod 256] 3) 255
  && is_ (at_ [0; 0; 255; len; (- len) mod 256] 4) 255 = false.
Proof.
  cbn [at_ nth_error is_].
  destruct (Z.eqb_spec len 255) as [-> | _]; reflexivity.
Qed.

Lemma header_checksum (len : Z) :
  _calculate_checksum (slice_from 3 [0; 0; 255; len; (- len) mod 256]) = 0.
Proof.
  cbn [slice_from skipn]. rewrite checksum_mod. cbn [fold_left].
  rewrite Z.add_0_l.
  pose proof (Z.div_mod (- len) 256 ltac:(lia)) as D.
  replace (- (len + (- len) mod 256)) with (0 + (- len / 256) * 256) by lia.
  now rewrite Z_mod_plus_full.
Qed.

(** Once the header of a reply is in: with body, checksum and closing zero
    at the front of the buffer, the engine resolves with the body. *)
Lemma after_header_answered (c : checker) (w : world) (body rest : bytes) :
  let len := Z.of_nat (List.length body) in
  idle_with w (body ++ [(- fold_left Z.add body 0) mod 256; 0] ++ rest) ->
  10 < _timeout w -> (List.length body <= 255)%nat ->
  check_truthy c = true ->
  exists w',
    after_header c [0; 0; 255; len; (- len) mod 256] w = (Resolved body, w')
    /\ idle_with w' rest /\ untouched w w'.
Proof.
  intros len Hidle Ht Hlen Hc. unfold after_header.
  rewrite header_not_extended, header_checksum. cbn [Z.eqb negb nth].
  replace (len >? MAX_RW_RESPONSE_LEN) with false
    by (symmetry; unfold MAX_RW_RESPONSE_LEN; rewrite Z.gtb_ltb;
        apply Z.ltb_ge; lia).
  destruct (read_step (Z.to_nat len) CheckNone w body _
              (proj1 Hidle) Ht (idle_received _ _ Hidle)
              ltac:(unfold len; now rewrite Nat2Z.id))
    as (w1 & E1 & Hidle1 & U1).
  cbn [check_passes check_truthy] in E1.
  rewrite (then_resolved _ _ _ _ _ _ E1).
  assert (Ht1 : 10 < _timeout w1) by (destruct U1 as [-> _]; exact Ht).
  destruct (read_step 2
              (CheckFun (fun buf => is_ (at_ buf 0) (_calculate_checksum body)
                                    && is_ (at_ buf 1) 0))
              w1 [(- fold_left Z.add body 0) mod 256; 0] rest
              (proj1 Hidle1) Ht1 (idle_received _ _ Hidle1) eq_refl)
    as (w2 & E2 & Hidle2 & U2).
  match type of E2 with _ = (if ?cond then _ else _, _) =>
    assert (P : cond = true)
      by (cbn [check_passes check_truthy at_ nth_error is_];
          now rewrite checksum_mod, Z.eqb_refl);
    rewrite P in E2
  end.
  rewrite (then_resolved _ _ _ _ _ _ E2).
  exists w2. rewrite (after_checksum_truthy c body w2 Hc).
  split; [reflexivity |]. split; [exact Hidle2 |].
  eapply untouched_trans; eassumption.
Qed.

(** A transaction whose reply, acknowledgement first, is received by the
    next tick resolves with the body of the reply; it has written the frame
    start, the command and the checksum with its closing zero, flushed
    once, and left what follows the reply at the front of the buffer. *)
Lemma rw_command_answered (command : command_arg) (c : checker) (w : world)
    (body rest : bytes) :
  let send_buffer :=
    match command with CmdBuf b => b | CmdStr s => buffer_from_ascii s end in
  _read_queue w = [] -> 10 < _timeout w -> (List.length body <= 255)%nat ->
  check_truthy c = true ->
  received_by_next_tick w (device_reply body ++ rest) ->
  exists w',
    _rw_command command c w = (Resolved body, w')
    /\ idle_with w' rest
    /\ _timeout w' = _timeout w /\ _busy w' = _busy w
    /\ written w' = written w
         ++ [frame_start send_buffer; send_buffer;
             concat_buffer [ANum (_calculate_checksum send_buffer); AStr [0]]]
    /\ flushed w' = S (flushed w).
Proof.
  intros send_buffer Hq Ht Hlen Hc Hrecv.
  unfold _rw_command. fold send_buffer.
  unfold then_ at 1 2 3 4.
  unfold flush, _concat_and_write_serial, _write_serial, update.
  match goal with |- context [then_ _ _ _ ?v] => set (w0 := v) end.
  assert (Hrecv0 : received_by_next_tick w0
            (ACK ++ [0; 0; 255; Z.of_nat (List.length body);
                     (- Z.of_nat (List.length body)) mod 256]
                 ++ body ++ [(- fold_left Z.add body 0) mod 256; 0] ++ rest)).
  { apply (received_same w); try reflexivity.
    unfold device_reply in Hrecv. cbv zeta in Hrecv.
    now rewrite <- !app_assoc in Hrecv. }
  destruct (read_step 6 (CheckHex "0000ff00ff00") w0 ACK _ Hq Ht Hrecv0 eq_refl)
    as (w1 & E1 & Hidle1 & U1).
  change (check_passes (CheckHex "0000ff00ff00") ACK) with true in E1.
  rewrite (then_resolved _ _ _ _ _ _ E1).
  assert (Ht1 : 10 < _timeout w1) by (destruct U1 as [-> _]; exact Ht).
  destruct (read_step 5
              (CheckFun (fun buf => starts_with "0000ff" (to_hex buf)))
              w1 [0; 0; 255; Z.of_nat (List.length body);
                  (- Z.of_nat (List.length body)) mod 256] _
              (proj1 Hidle1) Ht1 (idle_received _ _ Hidle1) eq_refl)
    as (w2 & E2 & Hidle2 & U2).
  change (check_passes _ _) with true in E2.
  rewrite (then_resolved _ _ _ _ _ _ E2).
  assert (Ht2 : 10 < _timeout w2) by (destruct U2 as [-> _]; exact Ht1).
  destruct (after_header_answered c w2 body rest Hidle2 Ht2 Hlen Hc)
    as (w3 & E3 & Hidle3 & U3).
  exists w3. split; [exact E3 |]. split; [exact Hidle3 |].
  pose proof (untouched_trans _ _ _ (untouched_trans _ _ _ U1 U2) U3) as U.
  unfold untouched in U. cbn [w0 set_serial _timeout _busy written flushed] in U.
  destruct U as (-> & -> & -> & ->).
  now rewrite <- !app_assoc.
Qed.

(** X9. The transaction engine on a reader that answers.  With no read
    pending and a timeout above the 10 ms of one tick: when the
    acknowledgement and a normal frame around [body] are received by the
    next tick, a transaction with a validator resolves with [body].  It has
    written the frame start, the command and the checksum with its closing
    zero, nothing else, has flushed once, has left timeout and busy flag
    alone, and what was received after the reply is at the front of the
    buffer for the next read. *)
Theorem transaction_resolves_with_reply_body (command : command_arg)
    (c : checker) (w : world) (body rest : bytes) :
  _read_queue w = [] -> 10 < _timeout w -> (List.length body <= 255)%nat ->
  check_truthy c = true ->
  received_by_next_tick w (device_reply body ++ rest) ->
  let send_buffer :=
    match command with CmdBuf b => b | CmdStr s => buffer_from_ascii s end in
  exists w',
    _rw_command command c w = (Resolved body, w')
    /\ idle_with w' rest
    /\ _timeout w' = _timeout w /\ _busy w' = _busy w
    /\ written w' = written w
         ++ [frame_start send_buffer; send_buffer;
             concat_buffer [ANum (_calculate_checksum send_buffer); AStr [0]]]
    /\ flushed w' = S (flushed w).
Proof.
  intros Hq Ht Hlen Hc Hrecv send_buffer.
  now apply rw_command_answered.
Qed.

Lemma transaction_resolves_with_reply_body_witness :
  exists w',
    _rw_command (CmdStr [212; 50; 2; 0; 0; 0]) (CheckHex "d533")
                (constructor 1000 [(10, device_reply [213; 51] ++ [9; 9])])
    = (Resolved [213; 51], w')
    /\ idle_with w' [9; 9]
    /\ _timeout w'
       = _timeout (constructor 1000 [(10, device_reply [213; 51] ++ [9; 9])])
    /\ _busy w'
       = _busy (constructor 1000 [(10, device_reply [213; 51] ++ [9; 9])])
    /\ written w'
       = written (constructor 1000 [(10, device_reply [213; 51] ++ [9; 9])])
         ++ [frame_start (buffer_from_ascii [212; 50; 2; 0; 0; 0]);
             buffer_from_ascii [212; 50; 2; 0; 0; 0];
             concat_buffer
               [ANum (_calculate_checksum
                        (buffer_from_ascii [212; 50; 2; 0; 0; 0]));
                AStr [0]]]
    /\ flushed w'
       = S (flushed (constructor 1000
                       [(10, device_reply [213; 51] ++ [9; 9])])).
Proof.
  apply (transaction_resolves_with_reply_body
           (CmdStr [212; 50; 2; 0; 0; 0]) (CheckHex "d533")
           (constructor 1000 [(10, device_reply [213; 51] ++ [9; 9])])
           [213; 51] [9; 9]).
  - reflexivity.
  - cbn. lia.
  - cbn. lia.
  - reflexivity.
  - exists []. vm_compute. reflexivity.
Defined.

(** ** What a transaction writes *)

Lemma tick_untouched (now : Z) (w : world) :
  untouched w (fst (fst (tick now w))).
Proof.
  unfold tick, untouched.
  destruct (_read_queue w) as [| r rest]; [tauto |].
  destruct (now >=? time_expire r); [tauto |].
  destruct (_read_buffer w) as [rb |]; [| tauto].
  cbv zeta.
  match goal with |- context [(?n =? 0)%nat] => destruct (n =? 0)%nat end;
    cbn; tauto.
Qed.

Lemma await_untouched (fuel p : nat) (w : world) :
  untouched w (snd (await fuel p w)).
Proof.
  revert w. induction fuel as [| fuel IH]; intros w; cbn [await].
  - unfold untouched. tauto.
  - fold (at_next_tick w).
    destruct (at_next_tick_facts w) as (_ & _ & _ & _ & U1).
    pose proof (tick_untouched (clock (at_next_tick w)) (at_next_tick w)) as U2.
    destruct (tick _ _) as [[w2 cs] [x |]]; cbn [fst snd] in *.
    + eapply untouched_trans; eassumption.
    + destruct (settled p cs); cbn [snd].
      * eapply untouched_trans; eassumption.
      * eapply untouched_trans; [| apply IH].
        eapply untouched_trans; eassumption.
Qed.

Lemma read_untouched (n : nat) (c : checker) (t : option Z) (w : world) :
  untouched w (snd (_read n c t w)).
Proof.
  unfold _read.
  match goal with |- context [await ?f ?p ?v] =>
    pose proof (await_untouched f p v) as U end.
  unfold untouched in *. cbn [_timeout _busy written flushed] in U. exact U.
Qed.

(** Cancelling and then rejecting: the cancel frame is written, the port
    flushed, and the promise rejected with the given reason. *)
Lemma cancel_then_reject {A} (e : error) (w : world) :
  exists w',
    (_cancel ;; @reject A e) w = (Rejected e, w')
    /\ _timeout w' = _timeout w /\ _busy w' = _busy w
    /\ written w' = written w ++ [[0; 0; 255; 0; 255; 0]]
    /\ flushed w' = S (flushed w)
    /\ _read_queue w' = _read_queue w /\ _read_buffer w' = _read_buffer w.
Proof. eexists. split; [reflexivity |]. cbn. tauto. Qed.

Lemma discipline_from (base w1 : world) (res : outcome bytes * world) :
  untouched base w1 -> cancels_iff_rejected w1 res ->
  cancels_iff_rejected base res.
Proof.
  unfold untouched, cancels_iff_rejected.
  intros (E1 & E2 & E3 & E4) (F1 & F2 & F3 & F4).
  rewrite F1, F2, F3, F4, E1, E2, E3, E4. tauto.
Qed.

Lemma discipline_cancel_reject (e : error) (w : world) :
  cancels_iff_rejected w ((_cancel ;; reject e) w).
Proof.
  destruct (@cancel_then_reject bytes e w)
    as (w' & -> & E1 & E2 & E3 & E4 & _).
  unfold cancels_iff_rejected. cbn [fst snd].
  rewrite E1, E2, E3, E4. repeat split. lia.
Qed.

Lemma discipline_same (o : outcome bytes) (w : world) :
  (forall e, o <> Rejected e) -> cancels_iff_rejected w (o, w).
Proof.
  intros H. unfold cancels_iff_rejected. cbn [fst snd].
  destruct o as [b | e | | x | x]; try (now rewrite app_nil_r, Nat.add_0_r).
  now destruct (H e).
Qed.

(** A read followed by handlers that keep the discipline keeps it. *)
Lemma discipline_read (n : nat) (c : checker) (t : option Z)
    (f : bytes -> M bytes) (tag : string) (w : world) :
  (forall b v, cancels_iff_rejected v (f b v)) ->
  cancels_iff_rejected w
    (then_ (_read n c t) f
           (fun err => _cancel ;; reject (EWrap tag err)) w).
Proof.
  intros Hf. unfold then_ at 1.
  pose proof (read_untouched n c t w) as U.
  destruct (_read n c t w) as [[b | e | | x | x] w1]; cbn [snd] in U;
    apply (discipline_from w w1); try exact U.
  - apply Hf.
  - apply discipline_cancel_reject.
  - apply discipline_same; discriminate.
  - apply discipline_same; discriminate.
  - apply discipline_same; discriminate.
Qed.

Lemma discipline_after_checksum (c : checker) (body : bytes) (w : world) :
  cancels_iff_rejected w (after_checksum c body w).
Proof.
  unfold after_checksum. destruct (negb (check_truthy c)).
  - apply discipline_cancel_reject.
  - apply discipline_same; discriminate.
Qed.

Lemma discipline_after_header (c : checker) (header : bytes) (w : world) :
  cancels_iff_rejected w (after_header c header w).
Proof.
  unfold after_header.
  destruct (_ && _); [apply discipline_same; discriminate |].
  destruct (negb _); [apply discipline_cancel_reject |].
  destruct (_ >? _); [apply discipline_cancel_reject |].
  apply discipline_read. intros body v.
  apply discipline_read. intros dcs_buffer v'.
  apply discipline_after_checksum.
Qed.

Lemma rw_command_reads_after_writes (command : command_arg) (c : checker)
    (w : world) :
  let send_buffer :=
    match command with CmdBuf b => b | CmdStr s => buffer_from_ascii s end in
  exists w0,
    _timeout w0 = _timeout w /\ _busy w0 = _busy w
    /\ written w0
       = written w
         ++ [frame_start send_buffer; send_buffer;
             concat_buffer [ANum (_calculate_checksum send_buffer); AStr [0]]]
    /\ flushed w0 = S (flushed w)
    /\ cancels_iff_rejected w0 (_rw_command command c w).
Proof.
  intros send_buffer. unfold _rw_command. fold send_buffer.
  unfold then_ at 1 2 3 4.
  unfold flush, _concat_and_write_serial, _write_serial, update.
  match goal with |- context [then_ _ _ _ ?v] => exists v end.
  cbn [set_serial _timeout _busy written flushed].
  split; [reflexivity |]. split; [reflexivity |].
  split; [now rewrite <- !app_assoc |]. split; [reflexivity |].
  apply discipline_read. intros res_buffer v.
  apply discipline_read. intros header v'.
  apply discipline_after_header.
Qed.

(** X10. What a transaction has written when its promise settles, whatever
    the reader sent.  It has flushed the port and written the frame start,
    the command and the checksum with its closing zero.  When it resolves,
    that is all: three writes, one flush.  When it rejects, the cancel frame
    is its fourth and last write and the port was flushed a second time.
    In both cases the timeout and the busy flag are as before. *)
Theorem transaction_cancels_iff_rejected (command : command_arg)
    (c : checker) (w : world) :
  let send_buffer :=
    match command with CmdBuf b => b | CmdStr s => buffer_from_ascii s end in
  let sent :=
    [frame_start send_buffer; send_buffer;
     concat_buffer [ANum (_calculate_checksum send_buffer); AStr [0]]] in
  let res := _rw_command command c w in
  match fst res with
  | Resolved _ =>
      written (snd res) = written w ++ sent
      /\ flushed (snd res) = S (flushed w)
      /\ _timeout (snd res) = _timeout w /\ _busy (snd res) = _busy w
  | Rejected _ =>
      written (snd res) = written w ++ sent ++ [cancel_frame]
      /\ flushed (snd res) = S (S (flushed w))
      /\ _timeout (snd res) = _timeout w /\ _busy (snd res) = _busy w
  | _ => True
  end.
Proof.
  intros send_buffer sent res.
  destruct (rw_command_reads_after_writes command c w)
    as (w0 & E1 & E2 & E3 & E4 & D1 & D2 & D3 & D4).
  fold res in D1, D2, D3, D4. fold send_buffer in E3. fold sent in E3.
  destruct (fst res); try exact I;
    rewrite D1, D2, D3, D4, E1, E2, E3, E4; repeat split;
    try (now rewrite app_nil_r); try (now rewrite <- app_assoc); lia.
Qed.

(** A transaction that is not acknowledged: rejected after the cancel, the
    bytes behind the six that were read still buffered. *)
Lemma rw_command_not_acknowledged (command : command_arg)
    (c : checker) (w : world) (bad rest : bytes) :
  let send_buffer :=
    match command with CmdBuf b => b | CmdStr s => buffer_from_ascii s end in
  _read_queue w = [] -> 10 < _timeout w ->
  List.length bad = 6%nat -> to_hex bad <> "0000ff00ff00"%string ->
  received_by_next_tick w (bad ++ rest) ->
  exists w',
    _rw_command command c w
    = (Rejected (EWrap "no-ack" (EStr "check-failed")), w')
    /\ idle_with w' rest
    /\ _timeout w' = _timeout w /\ _busy w' = _busy w
    /\ written w'
       = written w ++ transaction_writes send_buffer ++ [cancel_frame].
Proof.
  intros send_buffer Hq Ht Hlen Hbad Hrecv.
  assert (Core : exists w',
            _rw_command command c w
            = (Rejected (EWrap "no-ack" (EStr "check-failed")), w')
            /\ idle_with w' rest).
  { unfold _rw_command.
    unfold then_ at 1 2 3 4.
    unfold flush, _concat_and_write_serial, _write_serial, update.
    match goal with |- context [then_ _ _ _ ?v] => set (w0 := v) end.
    assert (Hrecv0 : received_by_next_tick w0 (bad ++ rest))
      by (apply (received_same w); try reflexivity; exact Hrecv).
    destruct (read_step 6 (CheckHex "0000ff00ff00") w0 bad rest
                Hq Ht Hrecv0 Hlen)
      as (w1 & E1 & (Hq1 & Hb1) & U1).
    replace (check_passes (CheckHex "0000ff00ff00") bad) with false in E1
      by (symmetry; unfold check_passes;
          change (check_truthy (CheckHex "0000ff00ff00")) with true; cbv iota;
          apply String.eqb_neq; congruence).
    rewrite (then_rejected _ _ _ _ _ _ E1).
    destruct (@cancel_then_reject bytes
                (EWrap "no-ack" (EStr "check-failed")) w1)
      as (w2 & -> & _ & _ & _ & _ & Hq2 & Hb2).
    exists w2. split; [reflexivity |].
    split; [now rewrite Hq2 | now rewrite Hb2]. }
  destruct Core as (w' & E & Hidle).
  destruct (rw_command_reads_after_writes command c w)
    as (wr & R1 & R2 & R3 & _ & D1 & D2 & D3 & _).
  fold send_buffer in R3.
  rewrite E in D1, D2, D3. cbn [fst snd] in D1, D2, D3.
  exists w'. split; [exact E |]. split; [exact Hidle |].
  rewrite D1, D2, D3, R1, R2, R3. unfold transaction_writes.
  repeat split. now rewrite <- app_assoc.
Qed.



(** ** Polling *)


Lemma skipn_exact {A} (n : nat) (a b : list A) :
  List.length a = n -> skipn n (a ++ b) = b.
Proof.
  intros <-. now rewrite skipn_app, skipn_all, Nat.sub_diag.
Qed.







(** ** Card commands that are answered *)


(** ** Replies that arrive after their commands *)

Lemma at_next_tick_inbound (w : world) :
  inbound (at_next_tick w)
  = filter (fun c => negb (fst c <=? clock w + 10)) (inbound w).
Proof.
  unfold at_next_tick, deliver. cbv zeta.
  match goal with |- context [fold_left _ ?l ?v] =>
    destruct (fold_on_data l v) as (_ & _ & _ & _ & -> & _) end.
  reflexivity.
Qed.

Lemma prompt_replies_later (script : list (Z * bytes)) :
  forall start bound : Z,
    bound <= start -> prompt_replies start script ->
    Forall (fun chunk => bound < fst chunk) script.
Proof.
  induction script as [| [t r] script IH]; intros start bound Hb H;
    cbn [prompt_replies] in H.
  - constructor.
  - destruct H as [Ht H]. constructor; [cbn [fst]; lia |].
    apply (IH (start + 40)); [lia | exact H].
Qed.

Lemma none_due (bound : Z) (script : list (Z * bytes)) :
  Forall (fun chunk => bound < fst chunk) script ->
  filter (fun c => fst c <=? bound) script = []
  /\ filter (fun c => negb (fst c <=? bound)) script = script.
Proof.
  induction 1 as [| chunk script Hc _ [IH1 IH2]]; cbn [filter];
    [now split |].
  replace (fst chunk <=? bound) with false by (symmetry; apply Z.leb_gt; lia).
  cbn [negb]. now rewrite IH1, IH2.
Qed.

(** At a tick at which nothing arrives the buffer is as it was. *)
Lemma quiet_tick (w : world) (b : bytes) (t : Z) :
  holds_until w b t -> clock w + 10 <= t ->
  _read_buffer (at_next_tick w) = Some b
  /\ inbound (at_next_tick w) = inbound w.
Proof.
  intros (_ & Hb & Hin) Hc.
  assert (F : Forall (fun chunk => clock w + 10 < fst chunk) (inbound w)).
  { eapply Forall_impl; [| exact Hin]. cbn beta. intros chunk H. lia. }
  destruct (none_due _ _ F) as [D L].
  destruct (at_next_tick_facts w) as (E & _).
  rewrite at_next_tick_inbound, L, E, D, Hb. now split.
Qed.

(** At the first tick after a command the reply to it, and only this
    reply, has arrived. *)
Lemma first_tick_prompt (w : world) (reply : bytes) (later : list bytes) :
  awaits_prompt_replies w (reply :: later) ->
  _read_buffer (at_next_tick w) = Some reply
  /\ map snd (inbound (at_next_tick w)) = later
  /\ prompt_replies (clock w + 40) (inbound (at_next_tick w)).
Proof.
  intros (_ & Hnb & Hm & Hp).
  destruct (inbound w) as [| [t r] script] eqn:Hin; [discriminate |].
  cbn [map snd] in Hm. injection Hm as -> Hm.
  cbn [prompt_replies] in Hp. destruct Hp as [Ht Hp].
  destruct (none_due (clock w + 10) script
              (prompt_replies_later script (clock w + 40) (clock w + 10)
                 ltac:(lia) Hp)) as [D L].
  destruct (at_next_tick_facts w) as (E & _).
  rewrite at_next_tick_inbound, E, Hin. cbn [filter fst].
  replace (t <=? clock w + 10) with true by (symmetry; apply Z.leb_le; lia).
  cbn [negb]. rewrite D, L. cbn [fold_left].
  split; [| now split].
  destruct Hnb as [-> | ->]; reflexivity.
Qed.

Lemma prompt_received (w : world) (reply : bytes) (later : list bytes) :
  awaits_prompt_replies w (reply :: later) ->
  received_by_next_tick w (reply ++ []).
Proof.
  intros H. destruct (first_tick_prompt w reply later H) as (Hb & _).
  exists []. now rewrite !app_nil_r.
Qed.

(** A read whose bytes are at the front of the buffer at the next tick is
    settled at that tick, which takes 10 ms and leaves in the buffer
    exactly what follows these bytes. *)
Lemma read_step_exact (n : nat) (c : checker) (w : world) (b rest : bytes) :
  _read_queue w = [] -> 10 < _timeout w ->
  _read_buffer (at_next_tick w) = Some (b ++ rest) -> List.length b = n ->
  exists w',
    _read n c None w
    = (if check_passes c b then Resolved b else Rejected (EStr "check-failed"),
       w')
    /\ _read_queue w' = [] /\ _read_buffer w' = Some rest
    /\ clock w' = clock w + 10 /\ inbound w' = inbound (at_next_tick w)
    /\ untouched w w'.
Proof.
  intros Hq Ht Hrecv Hn. unfold _read.
  match goal with |- context [await _ _ ?v] => set (w0 := v) end.
  assert (Hb1 : _read_buffer (at_next_tick w0) = Some (b ++ rest)).
  { destruct (at_next_tick_facts w0) as (E0 & _).
    destruct (at_next_tick_facts w) as (E & _).
    rewrite E0. cbn [w0 clock inbound _read_buffer]. now rewrite <- E. }
  assert (Hi1 : inbound (at_next_tick w0) = inbound (at_next_tick w))
    by (now rewrite !at_next_tick_inbound).
  destruct (at_next_tick_facts w0) as (_ & Hq1 & _ & Hc1 & U1).
  unfold ticks_to_deadline. cbn [await].
  fold (at_next_tick w0). set (w1 := at_next_tick w0) in *.
  cbn [w0 _read_queue clock] in Hq1, Hc1. rewrite Hq in Hq1. cbn [app] in Hq1.
  rewrite Hc1.
  match type of Hq1 with _ = [?r] => set (req := r) in * end.
  rewrite (tick_live_cases (clock w + 10) w1 req [] _ Hq1
             ltac:(cbn; lia) Hb1).
  replace (bytes_needed req <=? List.length (b ++ rest))%nat
    with true
    by (symmetry; apply Nat.leb_le; cbn; rewrite !length_app; lia).
  cbv zeta. cbn [req buffers bytes_needed check promise List.concat app].
  rewrite <- Hn, firstn_app, Nat.sub_diag, firstn_all.
  cbn [firstn]. rewrite !app_nil_r.
  rewrite skipn_app, skipn_all, Nat.sub_diag. cbn [skipn app].
  unfold untouched in *. cbn [w0 _timeout _busy written flushed] in U1.
  destruct (check_passes c b); cbn [app settled]; rewrite Nat.eqb_refl;
    eexists; (split; [reflexivity |]);
    cbn [set_reads _read_queue _read_buffer clock inbound
         _timeout _busy written flushed];
    repeat split; try assumption; apply U1.
Qed.

Lemma read_step_quiet (n : nat) (c : checker) (w : world) (b rest : bytes)
    (t : Z) :
  holds_until w (b ++ rest) t -> clock w + 10 <= t -> 10 < _timeout w ->
  List.length b = n ->
  exists w',
    _read n c None w
    = (if check_passes c b then Resolved b else Rejected (EStr "check-failed"),
       w')
    /\ holds_until w' rest t /\ clock w' = clock w + 10
    /\ inbound w' = inbound w /\ untouched w w'.
Proof.
  intros H Hc Ht Hn. destruct (quiet_tick w _ t H Hc) as [Hb Hi].
  destruct (read_step_exact n c w b rest (proj1 H) Ht Hb Hn)
    as (w' & E & Hq' & Hb' & Hc' & Hi' & U).
  rewrite Hi in Hi'.
  exists w'. split; [exact E |].
  split; [| split; [exact Hc' | split; [exact Hi' | exact U]]].
  split; [exact Hq' |]. split; [exact Hb' |].
  rewrite Hi'. apply H.
Qed.

(** Once the header of a reply is in, with body, checksum and closing zero
    buffered and nothing else arriving meanwhile: the engine resolves with
    the body two ticks later and has emptied the buffer. *)
Lemma after_header_prompt (c : checker) (w : world) (body : bytes) (t : Z) :
  let len := Z.of_nat (List.length body) in
  holds_until w (body ++ [(- fold_left Z.add body 0) mod 256; 0]) t ->
  clock w + 20 <= t ->
  10 < _timeout w -> (List.length body <= 255)%nat ->
  check_truthy c = true ->
  exists w',
    after_header c [0; 0; 255; len; (- len) mod 256] w = (Resolved body, w')
    /\ holds_until w' [] t /\ clock w' = clock w + 20
    /\ inbound w' = inbound w /\ untouched w w'.
Proof.
  intros len H Hclk Ht Hlen Hc. unfold after_header.
  rewrite header_not_extended, header_checksum. cbn [Z.eqb negb nth].
  replace (len >? MAX_RW_RESPONSE_LEN) with false
    by (symmetry; unfold MAX_RW_RESPONSE_LEN; rewrite Z.gtb_ltb;
        apply Z.ltb_ge; lia).
  destruct (read_step_quiet (Z.to_nat len) CheckNone w body _ t
              H ltac:(lia) Ht ltac:(unfold len; now rewrite Nat2Z.id))
    as (w1 & E1 & H1 & C1 & I1 & U1).
  cbn [check_passes check_truthy] in E1.
  rewrite (then_resolved _ _ _ _ _ _ E1).
  assert (Ht1 : 10 < _timeout w1) by (destruct U1 as [-> _]; exact Ht).
  destruct (read_step_quiet 2
              (CheckFun (fun buf => is_ (at_ buf 0) (_calculate_checksum body)
                                    && is_ (at_ buf 1) 0))
              w1 [(- fold_left Z.add body 0) mod 256; 0] [] t
              H1 ltac:(lia) Ht1 eq_refl)
    as (w2 & E2 & H2 & C2 & I2 & U2).
  match type of E2 with _ = (if ?cond then _ else _, _) =>
    assert (P : cond = true)
      by (cbn [check_passes check_truthy at_ nth_error is_];
          now rewrite checksum_mod, Z.eqb_refl);
    rewrite P in E2
  end.
  rewrite (then_resolved _ _ _ _ _ _ E2).
  exists w2. rewrite (after_checksum_truthy c body w2 Hc).
  split; [reflexivity |]. split; [exact H2 |].
  split; [lia |]. split; [congruence |].
  eapply untouched_trans; eassumption.
Qed.

(** A transaction on a reader that answers promptly.  The reply to the
    command, acknowledgement first, arrives after the command was written
    and before the next tick: the transaction resolves with the body of the
    reply four ticks after it began, having consumed the whole reply, and
    the replies to come are prompt for the commands to come. *)
Lemma rw_command_prompt (command : command_arg) (c : checker) (w : world)
    (body : bytes) (later : list bytes) :
  let send_buffer :=
    match command with CmdBuf b => b | CmdStr s => buffer_from_ascii s end in
  awaits_prompt_replies w (device_reply body :: later) ->
  10 < _timeout w -> (List.length body <= 255)%nat ->
  check_truthy c = true ->
  exists w',
    _rw_command command c w = (Resolved body, w')
    /\ awaits_prompt_replies w' later
    /\ _timeout w' = _timeout w /\ _busy w' = _busy w
    /\ written w' = written w ++ transaction_writes send_buffer
    /\ flushed w' = S (flushed w)
    /\ clock w' = clock w + 40.
Proof.
  intros send_buffer Ha Ht Hlen Hc.
  unfold _rw_command. fold send_buffer.
  unfold then_ at 1 2 3 4.
  unfold flush, _concat_and_write_serial, _write_serial, update.
  match goal with |- context [then_ _ _ _ ?v] => set (w0 := v) end.
  assert (Ha0 : awaits_prompt_replies w0 (device_reply body :: later))
    by exact Ha.
  destruct (first_tick_prompt w0 _ _ Ha0) as (Hb & Hm & Hp).
  change (clock w0) with (clock w) in Hp.
  unfold device_reply in Hb. cbv zeta in Hb.
  destruct (read_step_exact 6 (CheckHex "0000ff00ff00") w0 ACK _
              (proj1 Ha0) Ht Hb eq_refl)
    as (w1 & E1 & Hq1 & Hb1 & C1 & I1 & U1).
  change (clock w0) with (clock w) in C1.
  change (check_passes (CheckHex "0000ff00ff00") ACK) with true in E1.
  rewrite (then_resolved _ _ _ _ _ _ E1).
  assert (Ht1 : 10 < _timeout w1) by (destruct U1 as [-> _]; exact Ht).
  assert (H1 : holds_until w1
                 ([0; 0; 255; Z.of_nat (List.length body);
                   (- Z.of_nat (List.length body)) mod 256]
                  ++ body ++ [(- fold_left Z.add body 0) mod 256; 0])
                 (clock w + 40)).
  { split; [exact Hq1 |]. split; [exact Hb1 |].
    rewrite I1. apply (prompt_replies_later _ (clock w + 40));
      [lia | exact Hp]. }
  destruct (read_step_quiet 5
              (CheckFun (fun buf => starts_with "0000ff" (to_hex buf)))
              w1 [0; 0; 255; Z.of_nat (List.length body);
                  (- Z.of_nat (List.length body)) mod 256] _ (clock w + 40)
              H1 ltac:(lia) Ht1 eq_refl)
    as (w2 & E2 & H2 & C2 & I2 & U2).
  change (check_passes _ _) with true in E2.
  rewrite (then_resolved _ _ _ _ _ _ E2).
  assert (Ht2 : 10 < _timeout w2) by (destruct U2 as [-> _]; exact Ht1).
  destruct (after_header_prompt c w2 body (clock w + 40) H2 ltac:(lia)
              Ht2 Hlen Hc)
    as (w3 & E3 & H3 & C3 & I3 & U3).
  exists w3. split; [exact E3 |].
  split.
  { split; [apply H3 |]. split; [right; apply H3 |].
    rewrite I3, I2, I1.
    split; [exact Hm |].
    now replace (clock w3) with (clock w + 40) by lia. }
  assert (Hclk : clock w3 = clock w + 40) by lia.
  pose proof (untouched_trans _ _ _ (untouched_trans _ _ _ U1 U2) U3) as U.
  unfold untouched in U. cbn [w0 set_serial _timeout _busy written flushed] in U.
  destruct U as (-> & -> & -> & ->).
  unfold transaction_writes. rewrite <- !app_assoc.
  now repeat split.
Qed.

Lemma awaits_set_busy (b : bool) (w : world) (replies : list bytes) :
  awaits_prompt_replies w replies ->
  awaits_prompt_replies (set_busy b w) replies.
Proof. intros H. exact H. Qed.

Lemma card_command_prompt (command : bytes) (w : world)
    (payload : bytes) (later : list bytes) :
  awaits_prompt_replies w (card_reply payload :: later) ->
  10 < _timeout w -> (List.length payload <= 251)%nat ->
  exists w',
    _card_command command w = (Resolved payload, w')
    /\ awaits_prompt_replies w' later
    /\ _timeout w' = _timeout w /\ _busy w' = _busy w.
Proof.
  intros Ha Ht Hlen. unfold _card_command.
  destruct (rw_command_prompt
              (CmdBuf (command_buffer (_timeout w) command))
              (CheckFun card_command_check) w
              ([213; 161; 0; Z.of_nat (List.length payload) + 1] ++ payload)
              later Ha Ht ltac:(cbn; lia) eq_refl)
    as (w' & E & Ha' & E1 & E2 & _).
  rewrite (then_resolved _ _ _ _ _ _ E).
  exists w'. split; [reflexivity |]. split; [exact Ha' |]. now split.
Qed.

Lemma request_service_prompt (idm : bytes) (sc : jsstring) (w : world)
    (payload : bytes) (later : list bytes) :
  awaits_prompt_replies w (card_reply payload :: later) ->
  10 < _timeout w -> (List.length payload <= 251)%nat ->
  exists w',
    _request_service idm sc w = (Resolved tt, w')
    /\ awaits_prompt_replies w' later
    /\ _timeout w' = _timeout w /\ _busy w' = _busy w.
Proof.
  intros Ha Ht Hlen. unfold _request_service, call_with_surplus.
  match goal with |- context [_card_command ?cmd] =>
    destruct (card_command_prompt cmd w payload later Ha Ht Hlen)
      as (w' & E & Ha' & E1 & E2)
  end.
  rewrite (then_resolved _ _ _ _ _ _ E).
  exists w'. split; [reflexivity |]. split; [exact Ha' |]. now split.
Qed.

Lemma read_without_encryption_prompt (idm : bytes) (sc : jsstring)
    (block_number : Z) (w : world) (payload : bytes) (later : list bytes) :
  awaits_prompt_replies w (card_reply payload :: later) ->
  10 < _timeout w -> (List.length payload <= 251)%nat ->
  exists w',
    _read_without_encryption idm sc block_number w
    = (Resolved (slice_from 12 payload), w')
    /\ awaits_prompt_replies w' later
    /\ _timeout w' = _timeout w /\ _busy w' = _busy w.
Proof.
  intros Ha Ht Hlen. unfold _read_without_encryption, call_with_surplus.
  match goal with |- context [_card_command ?cmd] =>
    destruct (card_command_prompt cmd w payload later Ha Ht Hlen)
      as (w' & E & Ha' & E1 & E2)
  end.
  rewrite (then_resolved _ _ _ _ _ _ E).
  exists w'. split; [reflexivity |]. split; [exact Ha' |]. now split.
Qed.

(** The block tasks of a multi-block read, run in order on a card that
    answers each of them promptly. *)
Lemma block_tasks_prompt (card_idm : bytes) (sc : jsstring)
    (block_number : Z) (payloads : list bytes) (later : list bytes) :
  forall (k : nat) (results : list bytes) (w : world),
    awaits_prompt_replies w (map card_reply payloads ++ later) ->
    10 < _timeout w ->
    Forall (fun p => (List.length p <= 251)%nat) payloads ->
    exists w',
      in_order
        (map (fun i =>
                then_ (_read_without_encryption card_idm sc (block_number + i))
                  (fun buf => resolve buf)
                  (fun err =>
                     throws_before (ReferenceError "colors is not defined")
                       (reject (EBlock "read-without-encryption-failed" err
                                       (block_number + i)))))
             (map Z.of_nat (seq k (List.length payloads))))
        results w
      = (Resolved (results ++ map (slice_from 12) payloads), w')
      /\ awaits_prompt_replies w' later
      /\ _timeout w' = _timeout w /\ _busy w' = _busy w.
Proof.
  induction payloads as [| p payloads IH]; intros k results w Ha Ht Hall.
  - cbn [List.length seq map in_order]. exists w.
    rewrite app_nil_r. split; [reflexivity |]. split; [exact Ha |]. now split.
  - cbn [List.length seq map in_order].
    cbn [map app] in Ha.
    inversion Hall as [| ? ? Hp Hall']; subst.
    destruct (read_without_encryption_prompt card_idm sc
                (block_number + Z.of_nat k) w p _ Ha Ht Hp)
      as (w1 & E & Ha1 & T1 & B1).
    unfold then_ at 1. rewrite E. unfold resolve at 1.
    destruct (IH (S k) (results ++ [slice_from 12 p]) w1
                Ha1 ltac:(now rewrite T1) Hall')
      as (w2 & E2 & Ha2 & T2 & B2).
    exists w2. rewrite E2, <- app_assoc. cbn [app].
    split; [reflexivity |]. split; [exact Ha2 |]. split; congruence.
Qed.

(** X26. Reading several blocks.  With a timeout above one tick, on an
    idle reader: when the card answers each of [n] block reads promptly
    (each reply arrives in one piece, after its command was written and
    before the timer runs next), the [i]-th answer being 12 header bytes followed by the
    [i]-th block, [_read_without_encryption2] resolves with the blocks
    concatenated in the order they were read, and has cleared the busy
    flag. *)
Theorem multi_block_read_concatenates_blocks (card_idm : bytes)
    (sc : jsstring) (block_number : Z) (payloads : list bytes)
    (w : world) (later : list bytes) :
  10 < _timeout w ->
  Forall (fun p => (List.length p <= 251)%nat) payloads ->
  awaits_prompt_replies w (map card_reply payloads ++ later) ->
  exists w',
    _read_without_encryption2 card_idm sc block_number
      (Z.of_nat (List.length payloads)) w
    = (Resolved (List.concat (map (slice_from 12) payloads)), w')
    /\ _busy w' = false.
Proof.
  intros Ht Hall Ha. unfold _read_without_encryption2, range.
  rewrite Nat2Z.id.
  unfold then_ at 1. unfold update at 1.
  unfold then_ at 1. rewrite serial_in_order.
  destruct (block_tasks_prompt card_idm sc block_number payloads later 0 []
              (set_busy true w) (awaits_set_busy true w _ Ha) Ht Hall)
    as (w1 & E & _).
  rewrite E. cbn [app]. unfold then_, update, resolve.
  now exists (set_busy false w1).
Qed.

Lemma multi_block_read_concatenates_blocks_witness :
  exists w',
    _read_without_encryption2 idm0 [143; 16] 0
      (Z.of_nat
         (List.length [[7] ++ idm0 ++ [0; 0; 1] ++ block_of 0;
                       [7] ++ idm0 ++ [0; 0; 1] ++ block_of 1;
                       [7] ++ idm0 ++ [0; 0; 1] ++ block_of 2]))
      (constructor 1000
         (promptly 0
            (map card_reply
                 [[7] ++ idm0 ++ [0; 0; 1] ++ block_of 0;
                  [7] ++ idm0 ++ [0; 0; 1] ++ block_of 1;
                  [7] ++ idm0 ++ [0; 0; 1] ++ block_of 2] ++ [])))
    = (Resolved
         (List.concat
            (map (slice_from 12)
                 [[7] ++ idm0 ++ [0; 0; 1] ++ block_of 0;
                  [7] ++ idm0 ++ [0; 0; 1] ++ block_of 1;
                  [7] ++ idm0 ++ [0; 0; 1] ++ block_of 2])), w')
    /\ _busy w' = false.
Proof.
  apply (multi_block_read_concatenates_blocks idm0 [143; 16] 0
           [[7] ++ idm0 ++ [0; 0; 1] ++ block_of 0;
            [7] ++ idm0 ++ [0; 0; 1] ++ block_of 1;
            [7] ++ idm0 ++ [0; 0; 1] ++ block_of 2]
           (constructor 1000
              (promptly 0
                 (map card_reply
                      [[7] ++ idm0 ++ [0; 0; 1] ++ block_of 0;
                       [7] ++ idm0 ++ [0; 0; 1] ++ block_of 1;
                       [7] ++ idm0 ++ [0; 0; 1] ++ block_of 2] ++ [])))
           []).
  - cbn. lia.
  - repeat constructor; cbn; lia.
  - repeat split; [now left | cbn; lia ..].
Defined.

(** Reading one block, on a card that answers promptly: the flag is set
    for the read and clear after it. *)
Lemma read_one_block_prompt (idm : bytes) (sc : jsstring)
    (block_number : Z) (w : world) (payload : bytes) (later : list bytes) :
  awaits_prompt_replies w (card_reply payload :: later) ->
  10 < _timeout w -> (List.length payload <= 251)%nat ->
  exists w',
    _read_without_encryption2 idm sc block_number 1 w
    = (Resolved (slice_from 12 payload), w')
    /\ awaits_prompt_replies w' later
    /\ _timeout w' = _timeout w /\ _busy w' = false.
Proof.
  intros Ha Ht Hlen. unfold _read_without_encryption2.
  unfold then_ at 1. unfold update at 1.
  change (range 1) with [0]. cbn [map].
  destruct (read_without_encryption_prompt idm sc (block_number + 0)
              (set_busy true w) payload later
              (awaits_set_busy true w _ Ha) Ht Hlen)
    as (w1 & E & Ha1 & T1 & _).
  unfold then_ at 1. rewrite serial_in_order. cbn [in_order].
  unfold then_ at 1. rewrite E. cbn [resolve app].
  unfold then_, update, resolve. cbn [List.concat].
  exists (set_busy false w1). rewrite app_nil_r.
  split; [reflexivity |]. split; [exact Ha1 |]. split; [exact T1 | reflexivity].
Qed.

(** The service check, then the read of the block, on a card that answers
    both promptly. *)
Lemma read_block_prompt (idm : bytes) (sc : jsstring)
    (block_number : Z) (w : world) (answer payload : bytes)
    (later : list bytes) :
  awaits_prompt_replies w (card_reply answer :: card_reply payload :: later) ->
  10 < _timeout w ->
  (List.length answer <= 251)%nat -> (List.length payload <= 251)%nat ->
  exists w',
    read_block idm sc block_number 1 w = (Resolved (slice_from 12 payload), w')
    /\ awaits_prompt_replies w' later
    /\ _timeout w' = _timeout w /\ _busy w' = false.
Proof.
  intros Ha Ht Hla Hlp. unfold read_block.
  destruct (request_service_prompt idm sc w answer _ Ha Ht Hla)
    as (w1 & E1 & Ha1 & T1 & _).
  rewrite (then_resolved _ _ _ _ _ _ E1).
  destruct (read_one_block_prompt idm sc block_number w1 payload later
              Ha1 ltac:(now rewrite T1) Hlp)
    as (w2 & E2 & Ha2 & T2 & B2).
  rewrite (then_resolved _ _ _ _ _ _ E2).
  exists w2.
  split; [reflexivity |]. split; [exact Ha2 |].
  split; [congruence | exact B2].
Qed.

(** X14. Reading the balance, for every balance.  With a timeout above one
    tick, on an idle reader: when the card answers the service check (with
    an answer of any content) and then the block read with 12 header bytes
    and a block that holds the number [v], below 65536, as two
    little-endian bytes at offset 11, each reply arriving promptly (in one
    piece, after its command was written and before the timer runs next),
    [read_service] with the balance descriptor resolves with balance [v]
    and leaves the busy flag clear. *)
Theorem read_service_returns_the_balance (card_idm : bytes) (w : world)
    (answer header before after : bytes) (later : list bytes) (v : Z) :
  10 < _timeout w ->
  (List.length answer <= 251)%nat ->
  List.length header = 12%nat -> List.length before = 11%nat ->
  (List.length after <= 200)%nat ->
  0 <= v < 65536 ->
  awaits_prompt_replies w
    (card_reply answer
     :: card_reply (header ++ before ++ le2 v ++ after) :: later) ->
  exists w',
    read_service card_idm SUICA_PROPERTIES w
    = (Resolved (Some {| balance := Some v |}), w')
    /\ _busy w' = false.
Proof.
  intros Ht Hla Hh Hb Haf Hv Ha.
  assert (Hp : Nat.le (List.length (header ++ before ++ le2 v ++ after)) 251)
    by (rewrite !length_app; cbn; lia).
  destruct (read_block_prompt card_idm [139; 0] 0 w answer _ later
              Ha Ht Hla Hp)
    as (w' & E & _ & _ & B).
  exists w'. split; [| exact B].
  unfold SUICA_PROPERTIES.
  rewrite read_service_one_block by discriminate.
  rewrite E. do 3 f_equal. cbn [nth_error].
  unfold slice_from. rewrite (skipn_exact 12) by exact Hh.
  now rewrite <- Hb, read_number_le2.
Qed.

Lemma read_service_returns_the_balance_witness :
  exists w',
    read_service idm0 SUICA_PROPERTIES
      (constructor 1000
         (promptly 0
            [card_reply ([3] ++ idm0 ++ [1; 8; 0]);
             card_reply (([7] ++ idm0 ++ [0; 0; 1])
                         ++ [0; 0; 0; 0; 0; 0; 0; 0; 0; 0; 0]
                         ++ le2 54321 ++ [0; 0; 0])]))
    = (Resolved (Some {| balance := Some 54321 |}), w')
    /\ _busy w' = false.
Proof.
  apply (read_service_returns_the_balance idm0
           (constructor 1000
              (promptly 0
                 [card_reply ([3] ++ idm0 ++ [1; 8; 0]);
                  card_reply (([7] ++ idm0 ++ [0; 0; 1])
                              ++ [0; 0; 0; 0; 0; 0; 0; 0; 0; 0; 0]
                              ++ le2 54321 ++ [0; 0; 0])]))
           ([3] ++ idm0 ++ [1; 8; 0]) ([7] ++ idm0 ++ [0; 0; 1])
           [0; 0; 0; 0; 0; 0; 0; 0; 0; 0; 0] [0; 0; 0] [] 54321).
  - cbn. lia.
  - cbn. lia.
  - reflexivity.
  - reflexivity.
  - cbn. lia.
  - lia.
  - repeat split; [now left | cbn; lia ..].
Defined.

(** ** Device bring-up *)

(** X15. Bringing up the reader.  With a timeout above one tick, on an idle
    reader: when the reader acknowledges and answers [D5 33] to each of the
    three set-up commands, each reply arriving promptly (in one piece,
    after its command was written and before the timer runs next),
    [init_device] resolves, having sent, in this order and with nothing in
    between, the frames of the three set-up commands [D4 32 02 00 00 00],
    [D4 32 05 00 00 00] and [D4 32 81 B7], and having flushed the port
    three times; each transaction has taken four runs of the timer, 120 ms
    in all, and the reader is idle again. *)
Theorem init_device_sends_three_commands (w : world) (later : list bytes) :
  10 < _timeout w ->
  awaits_prompt_replies w
    (device_reply [213; 51] :: device_reply [213; 51]
     :: device_reply [213; 51] :: later) ->
  exists w',
    init_device w = (Resolved tt, w')
    /\ written w'
       = written w
         ++ transaction_writes [212; 50; 2; 0; 0; 0]
         ++ transaction_writes [212; 50; 5; 0; 0; 0]
         ++ transaction_writes [212; 50; 129; 183]
    /\ flushed w' = S (S (S (flushed w)))
    /\ clock w' = clock w + 120
    /\ awaits_prompt_replies w' later.
Proof.
  intros Ht Ha. unfold init_device.
  destruct (rw_command_prompt (CmdStr [212; 50; 2; 0; 0; 0])
              (CheckHex "d533") w [213; 51] _ Ha Ht ltac:(cbn; lia) eq_refl)
    as (w1 & E1 & Ha1 & T1 & _ & W1 & F1 & C1).
  rewrite (then_resolved _ _ _ _ _ _ E1).
  destruct (rw_command_prompt (CmdStr [212; 50; 5; 0; 0; 0])
              (CheckHex "d533") w1 [213; 51] _ Ha1
              ltac:(now rewrite T1) ltac:(cbn; lia) eq_refl)
    as (w2 & E2 & Ha2 & T2 & _ & W2 & F2 & C2).
  rewrite (then_resolved _ _ _ _ _ _ E2).
  destruct (rw_command_prompt (CmdStr [212; 50; 129; 183])
              (CheckHex "d533") w2 [213; 51] _ Ha2
              ltac:(now rewrite T2, T1) ltac:(cbn; lia) eq_refl)
    as (w3 & E3 & Ha3 & T3 & _ & W3 & F3 & C3).
  rewrite (then_resolved _ _ _ _ _ _ E3).
  exists w3. split; [reflexivity |].
  rewrite W3, W2, W1, F3, F2, F1.
  split; [now rewrite <- !app_assoc |].
  split; [reflexivity |].
  split; [lia | exact Ha3].
Qed.

Lemma init_device_sends_three_commands_witness :
  exists w',
    init_device
      (constructor 1000
         (promptly 0 [device_reply [213; 51]; device_reply [213; 51];
                      device_reply [213; 51]]))
    = (Resolved tt, w')
    /\ written w'
       = written
           (constructor 1000
              (promptly 0 [device_reply [213; 51]; device_reply [213; 51];
                           device_reply [213; 51]]))
         ++ transaction_writes [212; 50; 2; 0; 0; 0]
         ++ transaction_writes [212; 50; 5; 0; 0; 0]
         ++ transaction_writes [212; 50; 129; 183]
    /\ flushed w'
       = S (S (S (flushed
                    (constructor 1000
                       (promptly 0 [device_reply [213; 51];
                                    device_reply [213; 51];
                                    device_reply [213; 51]])))))
    /\ clock w'
       = clock (constructor 1000
                  (promptly 0 [device_reply [213; 51];
                               device_reply [213; 51];
                               device_reply [213; 51]])) + 120
    /\ awaits_prompt_replies w' [].
Proof.
  apply (init_device_sends_three_commands
           (constructor 1000
              (promptly 0 [device_reply [213; 51]; device_reply [213; 51];
                           device_reply [213; 51]])) []).
  - cbn. lia.
  - repeat split; [now left | cbn; lia ..].
Defined.

(** X16. Bring-up stops at the first step that fails.  With a timeout above
    one tick, on an idle reader: when the reader answers the first set-up
    command promptly (in one piece, after the command was written and
    before the timer runs next), and what it sends for the second, again
    after the command was written and before the timer runs next, starts
    with six bytes that are not the ACK, [init_device] rejects with [RFConfiguration-1-failed]
    wrapping the engine's [no-ack]; it has written the frames of the first
    two commands and the cancel frame, and has not sent the third
    command. *)
Theorem init_device_stops_at_failed_step (w : world) (bad rest : bytes)
    (later : list bytes) :
  10 < _timeout w ->
  List.length bad = 6%nat -> to_hex bad <> "0000ff00ff00"%string ->
  awaits_prompt_replies w (device_reply [213; 51] :: (bad ++ rest) :: later) ->
  exists w',
    init_device w
    = (Rejected (EWrap "RFConfiguration-1-failed"
                   (EWrap "no-ack" (EStr "check-failed"))), w')
    /\ written w'
       = written w
         ++ transaction_writes [212; 50; 2; 0; 0; 0]
         ++ transaction_writes [212; 50; 5; 0; 0; 0]
         ++ [cancel_frame].
Proof.
  intros Ht Hlen Hbad Ha. unfold init_device.
  destruct (rw_command_prompt (CmdStr [212; 50; 2; 0; 0; 0])
              (CheckHex "d533") w [213; 51] _ Ha Ht ltac:(cbn; lia) eq_refl)
    as (w1 & E1 & Ha1 & T1 & _ & W1 & _).
  rewrite (then_resolved _ _ _ _ _ _ E1).
  pose proof (prompt_received _ _ _ Ha1) as Hrecv.
  rewrite <- app_assoc in Hrecv.
  destruct (rw_command_not_acknowledged (CmdStr [212; 50; 5; 0; 0; 0])
              (CheckHex "d533") w1 bad _ (proj1 Ha1)
              ltac:(now rewrite T1) Hlen Hbad Hrecv)
    as (w2 & E2 & _ & _ & _ & W2).
  rewrite (then_rejected _ _ _ _ _ _ E2).
  exists w2. split; [reflexivity |].
  rewrite W2, W1.
  now rewrite <- !app_assoc.
Qed.

Lemma init_device_stops_at_failed_step_witness :
  exists w',
    init_device
      (constructor 1000
         (promptly 0 [device_reply [213; 51]; [0; 0; 255; 0; 255; 1] ++ []]))
    = (Rejected (EWrap "RFConfiguration-1-failed"
                   (EWrap "no-ack" (EStr "check-failed"))), w')
    /\ written w'
       = written
           (constructor 1000
              (promptly 0 [device_reply [213; 51];
                           [0; 0; 255; 0; 255; 1] ++ []]))
         ++ transaction_writes [212; 50; 2; 0; 0; 0]
         ++ transaction_writes [212; 50; 5; 0; 0; 0]
         ++ [cancel_frame].
Proof.
  apply (init_device_stops_at_failed_step
           (constructor 1000
              (promptly 0 [device_reply [213; 51];
                           [0; 0; 255; 0; 255; 1] ++ []]))
           [0; 0; 255; 0; 255; 1] [] []).
  - cbn. lia.
  - reflexivity.
  - vm_compute. discriminate.
  - repeat split; [now left | cbn; lia ..].
Defined.

(** ** Sequencing and the block reader *)

Lemma in_order_length {A} (steps : list (M A)) :
  forall (results : list A) (w : world),
    match fst (in_order steps results w) with
    | Resolved all =>
        List.length all = (List.length results + List.length steps)%nat
    | _ => True
    end.
Proof.
  induction steps as [| step steps IH]; intros results w; cbn [in_order].
  - cbn. lia.
  - destruct (step w) as [[a | e | | x | x] w']; cbn [fst]; try exact I.
    specialize (IH (results ++ [a]) w').
    destruct (fst (in_order steps (results ++ [a]) w')); try exact I.
    rewrite IH, length_app. cbn. lia.
Qed.

(** X17. [serial] on functions whose promises resolve with buffers, as
    those the driver gives it do.  It runs them strictly one after the
    other: each is started in the state the one before left, none is
    started after one that did not resolve, and that one's outcome is the
    outcome of the whole, a function that throws instead of returning a
    promise counting as rejected with what it threw.  When all resolve,
    [serial] resolves with one buffer per function, in the order of the
    functions. *)
Theorem serial_runs_one_after_the_other (funcs : list (M bytes))
    (w : world) :
  serial funcs w = in_order funcs [] w
  /\ match fst (serial funcs w) with
     | Resolved results => List.length results = List.length funcs
     | _ => True
     end.
Proof.
  split; [apply serial_in_order |].
  rewrite serial_in_order.
  apply (in_order_length funcs [] w).
Qed.

(** X18. A descriptor without a [processing] function, like the four
    history descriptors, can not be read: [read_service] never resolves
    with it, whatever the card does. *)
Theorem read_service_needs_processing {T : Type} (card_idm : bytes)
    (sc : option jsstring) (n : option Z) (w : world) :
  match fst (read_service card_idm
               {| service_code := sc; blocks := n;
                  processing := @None (list bytes -> T) |} w) with
  | Resolved _ => False
  | _ => True
  end.
Proof.
  unfold read_service. cbn [service_code blocks processing].
  destruct (not_string sc || not_number n); [exact I |].
  unfold then_.
  now destruct (serial _ w) as [[results | e | | x | x] w'].
Qed.


(** X20. A multi-block read of no blocks.  For a length of zero or less,
    [_read_without_encryption2] sends nothing and resolves with an empty
    buffer; it clears the busy flag all the same, also when the flag was
    set by a polling that is still under way. *)
Theorem read_of_no_blocks_clears_busy (card_idm : bytes) (sc : jsstring)
    (block_number length : Z) (w : world) :
  length <= 0 ->
  _read_without_encryption2 card_idm sc block_number length w
  = (Resolved [], set_busy false w).
Proof.
  intros H. unfold _read_without_encryption2, range.
  replace (Z.to_nat length) with 0%nat by lia.
  reflexivity.
Qed.

Lemma read_of_no_blocks_clears_busy_witness :
  _read_without_encryption2 idm0 [139; 0] 0 0 (set_busy true balance_world)
  = (Resolved [], set_busy false (set_busy true balance_world)).
Proof.
  apply (read_of_no_blocks_clears_busy idm0 [139; 0] 0 0
           (set_busy true balance_world)).
  lia.
Defined.



(** X22. The busy guard of [polling].  With the flag set, [polling] rejects
    with [busy] and leaves the whole state as it is: nothing written,
    nothing flushed, no read queued, the flag still set.  With the flag
    clear and a system code that is a Buffer, a number or a string,
    whenever [polling] resolves or rejects, the flag is clear again.  With
    the flag clear and any other system code, [polling] rejects with the
    message of [concat_buffer] and leaves the flag set, having written
    nothing: every later poll rejects with [busy]. *)
Theorem polling_guards_with_busy_flag (system_code : jsvalue) (w : world) :
  if _busy w then polling system_code w = (Rejected (EStr "busy"), w)
  else
    match system_code with
    | JArg _ =>
        match fst (polling system_code w) with
        | Resolved _ | Rejected _ =>
            _busy (snd (polling system_code w)) = false
        | _ => True
        end
    | JOther json =>
        polling system_code w
        = (Rejected (EStr ("expecting number,string,Buffer ; received : "
                           ++ json)),
           set_busy true w)
        /\ polling system_code (set_busy true w)
           = (Rejected (EStr "busy"), set_busy true w)
    end.
Proof.
  destruct (_busy w) eqn:Hb.
  - now apply polling_while_busy.
  - destruct system_code as [a | json].
    + pose proof (polling_clears_busy a w
                    (snd (polling a w)) (fst (polling a w)) Hb) as H.
      rewrite <- surjective_pairing in H. now apply H.
    + split; [| now apply polling_while_busy].
      unfold polling. now rewrite Hb.
Qed.


Lemma card_command_not_acknowledged (command : bytes) (w : world)
    (bad rest : bytes) :
  _read_queue w = [] -> 10 < _timeout w ->
  List.length bad = 6%nat -> to_hex bad <> "0000ff00ff00"%string ->
  received_by_next_tick w (bad ++ rest) ->
  exists w',
    _card_command command w
    = (Rejected (EWrap "ex-command-failed"
                   (EWrap "no-ack" (EStr "check-failed"))), w')
    /\ written w'
       = written w
         ++ transaction_writes (command_buffer (_timeout w) command)
         ++ [cancel_frame]
    /\ _busy w' = _busy w.
Proof.
  intros Hq Ht Hlen Hbad Hrecv. unfold _card_command.
  destruct (rw_command_not_acknowledged
              (CmdBuf (command_buffer (_timeout w) command))
              (CheckFun card_command_check) w bad rest
              Hq Ht Hlen Hbad Hrecv) as (w' & E & _ & _ & B & W).
  rewrite (then_rejected _ _ _ _ _ _ E).
  exists w'. now repeat split.
Qed.

(** X24. A service check that fails.  With no read pending and a timeout
    above one tick: when the first six bytes received by the next tick, in
    answer to the service-check command, are not the ACK, [read_block]
    rejects with [request-service-failed] twice over, around the
    card-command and engine errors; it has written the frames of the
    service check and the cancel frame only, so no block read was sent, and
    it has not touched the busy flag. *)
Theorem read_block_stops_at_failed_service_check (card_idm : bytes)
    (sc : jsstring) (block_number length : Z) (w : world) (bad rest : bytes) :
  _read_queue w = [] -> 10 < _timeout w ->
  List.length bad = 6%nat -> to_hex bad <> "0000ff00ff00"%string ->
  received_by_next_tick w (bad ++ rest) ->
  exists w',
    read_block card_idm sc block_number length w
    = (Rejected
         (EWrap "request-service-failed"
            (EWrap "request-service-failed"
               (EWrap "ex-command-failed"
                  (EWrap "no-ack" (EStr "check-failed"))))), w')
    /\ written w'
       = written w
         ++ transaction_writes
              (command_buffer (_timeout w)
                 (_concat_buffer [CmdStr [2]; CmdBuf card_idm; CmdStr [1];
                                  CmdStr sc]))
         ++ [cancel_frame]
    /\ _busy w' = _busy w.
Proof.
  intros Hq Ht Hlen Hbad Hrecv.
  unfold read_block, _request_service, call_with_surplus.
  destruct (card_command_not_acknowledged
              (_concat_buffer [CmdStr [2]; CmdBuf card_idm; CmdStr [1];
                               CmdStr sc])
              w bad rest Hq Ht Hlen Hbad Hrecv) as (w' & E & W & B).
  exists w'. unfold then_ at 1.
  rewrite (then_rejected _ _ _ _ _ _ E).
  now repeat split.
Qed.

Lemma read_block_stops_at_failed_service_check_witness :
  exists w',
    read_block idm0 [139; 0] 0 1 bad_ack_world
    = (Rejected
         (EWrap "request-service-failed"
            (EWrap "request-service-failed"
               (EWrap "ex-command-failed"
                  (EWrap "no-ack" (EStr "check-failed"))))), w')
    /\ written w'
       = written bad_ack_world
         ++ transaction_writes
              (command_buffer (_timeout bad_ack_world)
                 (_concat_buffer [CmdStr [2]; CmdBuf idm0; CmdStr [1];
                                  CmdStr [139; 0]]))
         ++ [cancel_frame]
    /\ _busy w' = _busy bad_ack_world.
Proof.
  apply (read_block_stops_at_failed_service_check idm0 [139; 0] 0 1
           bad_ack_world [0; 0; 255; 0; 255; 1] []).
  - reflexivity.
  - cbn. lia.
  - reflexivity.
  - vm_compute. discriminate.
  - exists []. vm_compute. reflexivity.
Defined.


